(** * file-utils.js: the FileHandler request scheduler

    A shallow embedding of [src/index.js] (classes [FileHandler],
    [WorkingStack] and [Order]) together with the part of the Node.js
    runtime the file relies on: the event emitter, promises and their
    microtask queue, timers, and the asynchronous [fs] calls.

    JavaScript is single threaded: a callback runs to completion, then the
    microtask queue is drained, then the next timer or I/O callback runs.
    The embedding is therefore a labelled transition system whose labels
    are the things the host can do next: a caller invokes a public method,
    the next microtask runs, a timer fires, an [fs] call completes. *)

From Stdlib Require Import ZArith.
From stdpp Require Import base option list strings gmap.

Local Open Scope string_scope.
Local Open Scope list_scope.

(** ** JavaScript values and errors *)

(** What a promise of this program can be fulfilled with: [undefined]
    (the async methods that return nothing) or a string (file content). *)
Inductive JsValue :=
| VUndefined
| VString (s : string).

(** ** Order (src/index.js, l.339-374) *)

Module Order.

Record t := mk {
  path : string;
  type : string;
  data : string;
  id : string
}.

(** l.355: the five admitted operation names. *)
Definition valid_type (type : string) : bool :=
  negb (negb (String.eqb type "read") && negb (String.eqb type "write")
        && negb (String.eqb type "delete") && negb (String.eqb type "create")
        && negb (String.eqb type "append")).

(** l.367-373 *)
Definition getAsJsonElement (o : t) : string * string * string :=
  (path o, type o, data o).

End Order.

Abbreviation Order := Order.t.

(** Everything that is thrown or passed as an error in this program. *)
Inductive JsError :=
| ReferenceError (name : string)       (* <name> is not defined *)
| RangeError (msg : string)            (* setMaxListeners on a negative number *)
| TypeError (msg : string)             (* a property read on undefined; a rejected argument *)
| Error (msg : string)                 (* l.356: new Error(...) *)
| HostError (code : string)            (* the err of an fs callback *)
| UnknownOrderType (order : Order).    (* l.174: the object emitted by the default case *)

(** l.351-361: [new Order(path, type, data)].  [rnd] is the string the two
    [Math.random()] draws of l.353 produce; a missing [data] argument takes
    the default [""] and is passed as such by the callers below. *)
Definition newOrder (rnd : string) (path type data : string) : Order + JsError :=
  if Order.valid_type type
  then inl (Order.mk path type data rnd)
  else inr (Error "type must be read, write, delete, create or append").

(** ** WorkingStack (src/index.js, l.252-337) *)

Module WorkingStack.

Definition t := list Order.

Definition has_id (id : string) (order : Order) : bool :=
  String.eqb (Order.id order) id.

(** [stack.splice(stack.indexOf(order), 1)] for the first order whose id
    matches: orders are compared by identity in the source, and the first
    entry with a given id is also the first occurrence of that object. *)
Fixpoint remove_first (id : string) (stack : t) : t :=
  match stack with
  | [] => []
  | order :: rest =>
      if has_id id order then rest else order :: remove_first id rest
  end.

(** l.260-268: returns the order (or null) and the stack it leaves. *)
Definition getOrderById (id : string) (stack : t) : option Order * t :=
  match find (has_id id) stack with
  | Some order => (Some order, remove_first id stack)
  | None => (None, stack)
  end.

(** l.275-282 *)
Definition peekOrderById (id : string) (stack : t) : option Order :=
  find (has_id id) stack.

(** l.288-290 *)
Definition push (item : Order) (stack : t) : t := stack ++ [item].

(** l.296-298 *)
Definition pop (stack : t) : option Order * t :=
  (last stack, removelast stack).

(** l.304-306 *)
Definition peek (stack : t) : option Order := last stack.

(** l.311-313 *)
Definition isEmpty (stack : t) : bool := Nat.eqb (length stack) 0.

(** l.319-321 *)
Definition size (stack : t) : nat := length stack.

(** l.326-328 *)
Definition clear (stack : t) : t := [].

End WorkingStack.

(** ** The Node.js runtime the source relies on

    [EventEmitter], promises, [setTimeout] and [fs] are not code of this
    repository; they are modelled after their documented behaviour, and
    only as far as [src/index.js] uses them. *)

(** State of a promise. *)
Inductive PState :=
| Pending
| Fulfilled (v : JsValue)
| Rejected (e : JsError).

(** The one closure the source registers on the emitter (l.56-60).  It
    captures [order.id] and the [resolve] function of the promise made at
    l.47; promises are named by their index in the promise table. *)
Inductive Listener :=
| ReadListener (order_id : string) (resolve : nat).

(** What [emit] is called with: [{ order, content }] (l.189), [{ order }]
    (l.203, 217, 231, 245), or an error value (l.174, 187, ...). *)
Inductive Payload :=
| ReadData (order : Order) (content : string)
| OrderData (order : Order)
| ErrData (e : JsError).

(** [data.order]: undefined on the err of an fs callback. *)
Definition payload_order (data : Payload) : option Order :=
  match data with
  | ReadData order _ => Some order
  | OrderData order => Some order
  | ErrData (UnknownOrderType order) => Some order
  | ErrData _ => None
  end.

(** [data.content] *)
Definition payload_content (data : Payload) : JsValue :=
  match data with
  | ReadData _ content => VString content
  | _ => VUndefined
  end.

(** Jobs of the microtask queue. *)
Inductive Microtask :=
| Unlock (path : string)             (* l.150: () => { this.lock.delete(order.path) } *)
| Settle (promise : nat) (st : PState). (* the reaction of .then(resolve).catch(reject) *)

(** The closures handed to [setTimeout]. *)
Inductive TimerCb :=
| RetryRead (path : string) (promise : nat)   (* l.50-52 *)
| RetryWrite (path : string)                  (* l.31-34 *)
| RetryCreate (path : string)                 (* l.72-74 *)
| RetryDelete (path : string)                 (* l.88-90 *)
| RetryAppend (path : string)                 (* l.105-107 *)
| RetryExecute (order : Order) (id : string). (* l.133-136 *)

(** The private method whose [fs] call is in flight; its callback closes
    over the order. *)
Inductive Private :=
| readFilePrivate
| writeFilePrivate
| deleteFilePrivate
| createFilePrivate
| appendFilePrivate.

(** The FileHandler instance (first five fields: [lock], the emitter's
    listener ceiling and listeners, [orderStack], [timeout]) and the
    runtime around it. *)
Record State := mkState {
  lock : gset string;                       (* l.9 *)
  maxListeners : Z;                         (* emitter, l.10 and l.20 *)
  events : gmap string (list Listener);     (* emitter: listeners by event name *)
  orderStack : WorkingStack.t;              (* l.11 *)
  timeout : option Z;                       (* l.12; None is undefined *)
  promises : list PState;                   (* promise table *)
  reactions : list (nat * nat);             (* (src, tgt): src.then(resolve_tgt).catch(reject_tgt) *)
  microtasks : list Microtask;
  timers : list (option Z * TimerCb);       (* delay argument and callback *)
  inflight : list (Private * Order);        (* fs calls whose callback has not run *)
  files : gmap string string;               (* the file system: path to content *)
  uncaught : list JsError;                  (* exceptions no handler caught *)
  console : list string
}.

Definition set_lock (v : gset string) (s : State) : State :=
  mkState v (maxListeners s) (events s) (orderStack s) (timeout s) (promises s)
    (reactions s) (microtasks s) (timers s) (inflight s) (files s) (uncaught s) (console s).

Definition set_events (v : gmap string (list Listener)) (s : State) : State :=
  mkState (lock s) (maxListeners s) v (orderStack s) (timeout s) (promises s)
    (reactions s) (microtasks s) (timers s) (inflight s) (files s) (uncaught s) (console s).

Definition set_orderStack (v : WorkingStack.t) (s : State) : State :=
  mkState (lock s) (maxListeners s) (events s) v (timeout s) (promises s)
    (reactions s) (microtasks s) (timers s) (inflight s) (files s) (uncaught s) (console s).

Definition set_promises (v : list PState) (s : State) : State :=
  mkState (lock s) (maxListeners s) (events s) (orderStack s) (timeout s) v
    (reactions s) (microtasks s) (timers s) (inflight s) (files s) (uncaught s) (console s).

Definition set_reactions (v : list (nat * nat)) (s : State) : State :=
  mkState (lock s) (maxListeners s) (events s) (orderStack s) (timeout s) (promises s)
    v (microtasks s) (timers s) (inflight s) (files s) (uncaught s) (console s).

Definition set_microtasks (v : list Microtask) (s : State) : State :=
  mkState (lock s) (maxListeners s) (events s) (orderStack s) (timeout s) (promises s)
    (reactions s) v (timers s) (inflight s) (files s) (uncaught s) (console s).

Definition set_timers (v : list (option Z * TimerCb)) (s : State) : State :=
  mkState (lock s) (maxListeners s) (events s) (orderStack s) (timeout s) (promises s)
    (reactions s) (microtasks s) v (inflight s) (files s) (uncaught s) (console s).

Definition set_inflight (v : list (Private * Order)) (s : State) : State :=
  mkState (lock s) (maxListeners s) (events s) (orderStack s) (timeout s) (promises s)
    (reactions s) (microtasks s) (timers s) v (files s) (uncaught s) (console s).

Definition set_files (v : gmap string string) (s : State) : State :=
  mkState (lock s) (maxListeners s) (events s) (orderStack s) (timeout s) (promises s)
    (reactions s) (microtasks s) (timers s) (inflight s) v (uncaught s) (console s).

Definition set_uncaught (v : list JsError) (s : State) : State :=
  mkState (lock s) (maxListeners s) (events s) (orderStack s) (timeout s) (promises s)
    (reactions s) (microtasks s) (timers s) (inflight s) (files s) v (console s).

Definition set_console (v : list string) (s : State) : State :=
  mkState (lock s) (maxListeners s) (events s) (orderStack s) (timeout s) (promises s)
    (reactions s) (microtasks s) (timers s) (inflight s) (files s) (uncaught s) v.

(** *** Exceptions, timers, promises *)

(** An exception that leaves a timer or fs callback, or the rejection of
    a promise nothing handles. *)
Definition throw (e : JsError) (s : State) : State :=
  set_uncaught (uncaught s ++ [e]) s.

(** An identifier that is no parameter or local of the enclosing function
    and is not declared in the module ([content] at l.76 and l.92,
    [resolve] at l.33, 73, 89, 106): evaluating it throws. *)
Definition unbound (name : string) : JsError := ReferenceError name.

(** [setTimeout(callback, delay)] *)
Definition setTimeout (callback : TimerCb) (delay : option Z) (s : State) : State :=
  set_timers (timers s ++ [(delay, callback)]) s.

(** The delay in milliseconds Node uses for a [delay] argument: a value
    that is not a number between 1 and 2^31-1 is replaced by 1. *)
Definition timer_ms (delay : option Z) : Z :=
  match delay with
  | Some n => if ((1 <=? n) && (n <=? 2147483647))%Z then n else 1%Z
  | None => 1%Z
  end.

(** A new entry of the promise table, in state [st]. *)
Definition new_promise (st : PState) (s : State) : nat * State :=
  (length (promises s), set_promises (promises s ++ [st]) s).

(** The reactions [src.then(resolve).catch(reject)] registered on [src],
    as microtasks carrying the state [src] was settled with. *)
Definition reactions_of (src : nat) (st : PState) (rs : list (nat * nat)) : list Microtask :=
  map (fun r => Settle (snd r) st) (filter (fun r => fst r = src) rs).

(** [resolve(v)] / [reject(e)]: settles a pending promise and queues its
    reactions; a promise already settled is left alone. *)
Definition settle (p : nat) (st : PState) (s : State) : State :=
  match promises s !! p with
  | Some Pending =>
      set_microtasks (microtasks s ++ reactions_of p st (reactions s))
        (set_promises (<[p := st]> (promises s)) s)
  | _ => s
  end.

(** [src.then(resolve).catch(reject)] with the resolving functions of
    [tgt]: a reaction on a pending [src], a microtask on a settled one. *)
Definition then_forward (src tgt : nat) (s : State) : State :=
  match promises s !! src with
  | Some Pending => set_reactions (reactions s ++ [(src, tgt)]) s
  | Some st => set_microtasks (microtasks s ++ [Settle tgt st]) s
  | None => s
  end.

(** *** EventEmitter *)

Definition listeners (eventName : string) (s : State) : list Listener :=
  default [] (events s !! eventName).

Definition listenerCount (eventName : string) (s : State) : nat :=
  length (listeners eventName s).

Definition getMaxListeners (s : State) : Z := maxListeners s.

(** [emitter.on(eventName, listener)] *)
Definition on (eventName : string) (l : Listener) (s : State) : State :=
  set_events (<[eventName := listeners eventName s ++ [l]]> (events s)) s.

(** l.56-60: (data) => { if (data.order.id === order.id) resolve(data.content) } *)
Definition call_listener (data : Payload) (s : State) (l : Listener) : State :=
  match l with
  | ReadListener order_id resolve =>
      match payload_order data with
      | Some order =>
          if String.eqb (Order.id order) order_id
          then settle resolve (Fulfilled (payload_content data)) s
          else s
      | None => throw (TypeError "Cannot read properties of undefined (reading 'id')") s
      end
  end.

(** The value an 'error' event without listener is thrown as. *)
Definition payload_error (data : Payload) : JsError :=
  match data with
  | ErrData e => e
  | _ => Error "Unhandled error."
  end.

(** [emitter.emit(eventName, data)]: the listeners of [eventName] are
    called in registration order; an 'error' event nobody listens to is
    thrown. *)
Definition emit (eventName : string) (data : Payload) (s : State) : State :=
  match listeners eventName s with
  | [] => if String.eqb eventName "error" then throw (payload_error data) s else s
  | ls => foldl (call_listener data) s ls
  end.

(** *** The file system

    The [fs] module is the external collaborator.  A call is in flight
    from the moment it is issued until its callback runs; its effect is
    taken to happen at completion.  The host may fail any call ([fault]);
    reading or unlinking a missing file fails with ENOENT. *)
Definition fs_perform (fn : Private) (order : Order) (fault : option string)
    (fsys : gmap string string) : (string + JsError) * gmap string string :=
  match fault with
  | Some code => (inr (HostError code), fsys)
  | None =>
      match fn with
      | readFilePrivate =>                      (* fs.readFile(order.path, cb) *)
          match fsys !! Order.path order with
          | Some content => (inl content, fsys)
          | None => (inr (HostError "ENOENT"), fsys)
          end
      | writeFilePrivate | createFilePrivate => (* fs.writeFile(order.path, order.data, cb) *)
          (inl "", <[Order.path order := Order.data order]> fsys)
      | deleteFilePrivate =>                    (* fs.unlink(order.path, cb) *)
          match fsys !! Order.path order with
          | Some _ => (inl "", delete (Order.path order) fsys)
          | None => (inr (HostError "ENOENT"), fsys)
          end
      | appendFilePrivate =>                    (* fs.appendFile(order.path, order.data, cb) *)
          (inl "", <[Order.path order :=
                       String.append (default "" (fsys !! Order.path order)) (Order.data order)]> fsys)
      end
  end.

(** ** FileHandler (src/index.js, l.8-250) *)

(** A path string that holds the NUL character.  The fs functions check
    their arguments before they start anything: on such a path
    [fs.readFile], [fs.writeFile], [fs.unlink] and [fs.appendFile] throw a
    TypeError (ERR_INVALID_ARG_VALUE) at the call. *)
Fixpoint has_nul (path : string) : bool :=
  match path with
  | EmptyString => false
  | String c rest => Ascii.eqb c Ascii.zero || has_nul rest
  end.

(** l.184-248, up to the fs call: either the call is issued and the
    method returns, or the fs function throws on the path. *)
Definition private_call (fn : Private) (order : Order) (s : State) : State + JsError :=
  if has_nul (Order.path order)
  then inr (TypeError "ERR_INVALID_ARG_VALUE")
  else inl (set_inflight (inflight s ++ [(fn, order)]) s).

(** The event a private method emits on success. *)
Definition success_event (fn : Private) (order : Order) (content : string) : string * Payload :=
  match fn with
  | readFilePrivate => ("read", ReadData order content)   (* l.189 *)
  | writeFilePrivate => ("write", OrderData order)        (* l.203 *)
  | deleteFilePrivate => ("delete", OrderData order)      (* l.217 *)
  | createFilePrivate => ("create", OrderData order)      (* l.231 *)
  | appendFilePrivate => ("append", OrderData order)      (* l.245 *)
  end.

(** l.185-191 and its four siblings: the callback given to the fs call. *)
Definition private_callback (fn : Private) (order : Order) (result : string + JsError)
    (s : State) : State :=
  match result with
  | inr err => emit "error" (ErrData err) s
  | inl content =>
      let '(eventName, data) := success_event fn order content in
      emit eventName data s
  end.

(** The cases of the switch of l.147-176. *)
Definition private_of_type (type : string) : option Private :=
  if String.eqb type "read" then Some readFilePrivate
  else if String.eqb type "write" then Some writeFilePrivate
  else if String.eqb type "delete" then Some deleteFilePrivate
  else if String.eqb type "create" then Some createFilePrivate
  else if String.eqb type "append" then Some appendFilePrivate
  else None.

(** l.149-151 and siblings: [this.xFilePrivate(order).then(() =>
    this.lock.delete(order.path))].  The private methods are async without
    an await.  When the fs call was issued, the promise they return is
    fulfilled when they return, so the callback of [then] is queued as a
    microtask right away.  When the fs function threw, that promise is
    rejected: the callback of [then] never runs, the path stays in
    [lock], and the rejection, which nothing handles, escapes. *)
Definition dispatch (fn : Private) (order : Order) (s : State) : State :=
  match private_call fn order s with
  | inl s => set_microtasks (microtasks s ++ [Unlock (Order.path order)]) s
  | inr e => throw e s
  end.

(** l.127-178 *)
Definition executeOrder (id : string) (s : State) : State :=
  match find (WorkingStack.has_id id) (orderStack s) with
  | None => s                                                        (* l.129 *)
  | Some _ =>
      let '(found, stack) := WorkingStack.getOrderById id (orderStack s) in  (* l.130 *)
      let s := set_orderStack stack s in
      match found with
      | None => s                          (* not reached: l.129 found the order *)
      | Some order =>
          if decide (Order.path order ∈ lock s)                      (* l.132 *)
          then setTimeout (RetryExecute order id) (timeout s) s      (* l.133-137 *)
          else
            let s := set_lock (lock s ∪ {[Order.path order]}) s in   (* l.145 *)
            match private_of_type (Order.type order) with            (* l.147 *)
            | Some fn => dispatch fn order s
            | None => emit "error" (ErrData (UnknownOrderType order)) s  (* l.174 *)
            end
      end
  end.

(** l.118-121 *)
Definition orderExecution (order : Order) (s : State) : State :=
  executeOrder (Order.id order) (set_orderStack (WorkingStack.push order (orderStack s)) s).

(** The admission test of l.30, 49, 71, 87:
    [this.emitter.listenerCount(name) === this.emitter.getMaxListeners()]. *)
Definition at_capacity (eventName : string) (s : State) : bool :=
  Z.eqb (Z.of_nat (listenerCount eventName s)) (getMaxListeners s).

(** l.46-63.  Returns the index of the promise the caller gets. *)
Definition read (rnd path : string) (s : State) : nat * State :=
  let '(p, s) := new_promise Pending s in                            (* l.47 *)
  if at_capacity "read" s                                            (* l.49 *)
  then (p, setTimeout (RetryRead path p) (timeout s) s)              (* l.50-52 *)
  else
    match newOrder rnd path "read" "" with                           (* l.54 *)
    | inr e => (p, settle p (Rejected e) s)
    | inl order =>
        let s := orderExecution order s in                           (* l.55 *)
        (p, on "read" (ReadListener (Order.id order) p) s)           (* l.56-60 *)
    end.

(** l.29-39.  An async method without await: the promise it returns is
    fulfilled with undefined when the body returns, rejected when the
    body throws. *)
Definition write (rnd path content : string) (s : State) : nat * State :=
  if at_capacity "write" s                                           (* l.30 *)
  then new_promise (Fulfilled VUndefined)
         (setTimeout (RetryWrite path) (timeout s) s)                (* l.31-34 *)
  else
    match newOrder rnd path "write" content with                     (* l.36 *)
    | inr e => new_promise (Rejected e) s
    | inl order => new_promise (Fulfilled VUndefined) (orderExecution order s)  (* l.37 *)
    end.

(** l.70-79.  [content] at l.76 is not bound: the argument list of
    [new Order] throws before the constructor is entered. *)
Definition create (path : string) (s : State) : nat * State :=
  if at_capacity "create" s                                          (* l.71 *)
  then new_promise (Fulfilled VUndefined)
         (setTimeout (RetryCreate path) (timeout s) s)               (* l.72-74 *)
  else new_promise (Rejected (unbound "content")) s.                 (* l.76 *)

(** l.86-95, with the same unbound [content] at l.92.  The method is
    named [delete] in the source. *)
Definition delete_ (path : string) (s : State) : nat * State :=
  if at_capacity "delete" s                                          (* l.87 *)
  then new_promise (Fulfilled VUndefined)
         (setTimeout (RetryDelete path) (timeout s) s)               (* l.88-90 *)
  else new_promise (Rejected (unbound "content")) s.                 (* l.92 *)

(** l.103-112.  [listenerCount()] at l.104 is called without an event
    name: it counts the listeners of the event named by [undefined]. *)
Definition append (rnd path content : string) (s : State) : nat * State :=
  if at_capacity "undefined" s                                       (* l.104 *)
  then new_promise (Fulfilled VUndefined)
         (setTimeout (RetryAppend path) (timeout s) s)               (* l.105-107 *)
  else
    match newOrder rnd path "append" content with                    (* l.109 *)
    | inr e => new_promise (Rejected e) s
    | inl order => new_promise (Fulfilled VUndefined) (orderExecution order s)  (* l.110 *)
    end.

(** l.19-21: [new FileHandler(maxSyncWrites = 1000, timeout = 10)], run
    on a file system [fsys].  [setMaxListeners] rejects a negative number.
    The parameter [timeout] is not stored: the field of l.12 keeps the
    value it was declared with, undefined. *)
Definition constructor (fsys : gmap string string) (maxSyncWrites timeout : option Z)
    : State + JsError :=
  let maxSyncWrites := default 1000%Z maxSyncWrites in
  let timeout := default 10%Z timeout in
  if (maxSyncWrites <? 0)%Z
  then inr (RangeError "The value of n is out of range.")
  else inl (mkState ∅ maxSyncWrites ∅ [] None [] [] [] [] [] fsys [] []).

(** ** The event loop *)

(** A call of one of the five public methods. *)
Inductive Request :=
| Read (path : string)
| Write (path content : string)
| Create (path : string)
| Delete (path : string)
| Append (path content : string).

Definition call (r : Request) (rnd : string) (s : State) : nat * State :=
  match r with
  | Read path => read rnd path s
  | Write path content => write rnd path content s
  | Create path => create path s
  | Delete path => delete_ path s
  | Append path content => append rnd path content s
  end.

Definition run_microtask (m : Microtask) (s : State) : State :=
  match m with
  | Unlock path => set_lock (lock s ∖ {[path]}) s       (* l.150 *)
  | Settle p st => settle p st s
  end.

(** [this.read(path).then(resolve).catch(reject)] inside a method that
    binds neither [resolve] nor [reject] (l.33, 73, 89, 106): [read] is
    called, then evaluating the argument [resolve] throws. *)
Definition retry_as_read (rnd path : string) (s : State) : State :=
  throw (unbound "resolve") (snd (read rnd path s)).

Definition run_timer (cb : TimerCb) (rnd : string) (s : State) : State :=
  match cb with
  | RetryRead path p =>                                  (* l.51 *)
      let '(p', s) := read rnd path s in then_forward p' p s
  | RetryWrite path =>                                   (* l.32-33 *)
      retry_as_read rnd path (set_console (console s ++ ["retrying"]) s)
  | RetryCreate path => retry_as_read rnd path s         (* l.73 *)
  | RetryDelete path => retry_as_read rnd path s         (* l.89 *)
  | RetryAppend path => retry_as_read rnd path s         (* l.106 *)
  | RetryExecute order id =>                             (* l.134-135 *)
      executeOrder id (set_orderStack (WorkingStack.push order (orderStack s)) s)
  end.

(** An fs call completes and its callback runs. *)
Definition complete (fn : Private) (order : Order) (fault : option string) (s : State) : State :=
  let '(result, fsys) := fs_perform fn order fault (files s) in
  private_callback fn order result (set_files fsys s).

(** What can happen next.  [rnd] is the outcome of the [Math.random]
    draws the step makes, if it makes any. *)
Inductive Label :=
| Call (r : Request) (rnd : string)         (* a caller invokes a public method *)
| RunMicrotask                              (* the first job of the microtask queue runs *)
| FireTimer (i : nat) (rnd : string)        (* the i-th pending timer fires *)
| Complete (i : nat) (fault : option string). (* the i-th fs call in flight completes *)

(** One step.  Timers and fs callbacks run only once the microtask queue
    is empty; a label that is not enabled gives [None]. *)
Definition step (l : Label) (s : State) : option State :=
  match l with
  | Call r rnd => Some (snd (call r rnd s))
  | RunMicrotask =>
      match microtasks s with
      | m :: rest => Some (run_microtask m (set_microtasks rest s))
      | [] => None
      end
  | FireTimer i rnd =>
      match microtasks s, timers s !! i with
      | [], Some (_, cb) => Some (run_timer cb rnd (set_timers (delete i (timers s)) s))
      | _, _ => None
      end
  | Complete i fault =>
      match microtasks s, inflight s !! i with
      | [], Some (fn, order) =>
          Some (complete fn order fault (set_inflight (delete i (inflight s)) s))
      | _, _ => None
      end
  end.

Fixpoint run (ls : list Label) (s : State) : option State :=
  match ls with
  | [] => Some s
  | l :: ls => match step l s with Some s' => run ls s' | None => None end
  end.

(** The states a FileHandler can be in. *)
Inductive reachable : State -> Prop :=
| reachable_new fsys maxSyncWrites timeout s :
    constructor fsys maxSyncWrites timeout = inl s -> reachable s
| reachable_step l s s' :
    reachable s -> step l s = Some s' -> reachable s'.

(** The paths of the fs calls in flight. *)
Definition inflight_paths (s : State) : list string :=
  map (fun c => Order.path (snd c)) (inflight s).

(** A FileHandler made on [fsys] and driven through the steps [ls]. *)
Definition session (fsys : gmap string string) (maxSyncWrites timeout : option Z)
    (ls : list Label) : option State :=
  match constructor fsys maxSyncWrites timeout with
  | inl s => run ls s
  | inr _ => None
  end.

(** What a test observes of a state. *)
Definition in_flight (s : State) : list (Private * string * string) :=
  map (fun c => (fst c, Order.path (snd c), Order.data (snd c))) (inflight s).

Definition locked (s : State) : list string := elements (lock s).

Definition queued (s : State) : list string := map Order.id (orderStack s).

Definition disk (s : State) : list (string * string) := map_to_list (files s).

(** ** Invariants *)

(** An order whose type passed the test of l.355. *)
Definition order_ok (order : Order) : Prop :=
  Order.valid_type (Order.type order) = true.

Definition timer_ok (t : option Z * TimerCb) : Prop :=
  match snd t with
  | RetryExecute order _ => order_ok order
  | _ => True
  end.

(** Every order the scheduler holds (queued, waiting in a retry timer to
    be pushed again, or in flight) passed the test of [newOrder]. *)
Definition types_ok (s : State) : Prop :=
  Forall order_ok (orderStack s) /\
  Forall timer_ok (timers s) /\
  Forall (fun c => order_ok (snd c)) (inflight s).

(** The five operation names of l.355, as a list. *)
Definition kinds : list string := ["read"; "write"; "delete"; "create"; "append"].

(** The orders a state holds: in the registry, captured by a retry timer
    that will push them again, and in flight. *)
Definition timer_orders (s : State) : list Order :=
  omap (fun t => match snd t with RetryExecute order _ => Some order | _ => None end) (timers s).

Definition held_orders (s : State) : list Order :=
  orderStack s ++ timer_orders s ++ map snd (inflight s).

(** Every path in [lock] that the fs functions accept has the job that
    releases it in the microtask queue. *)
Definition lock_covered (s : State) : Prop :=
  forall path, path ∈ lock s -> has_nul path = false -> Unlock path ∈ microtasks s.

(** From [s] to [s'] no queued job was lost and every path newly locked
    has its releasing job queued, unless the fs function threw on it. *)
Definition lock_ext (s s' : State) : Prop :=
  (forall m, m ∈ microtasks s -> m ∈ microtasks s') /\
  (forall path, path ∈ lock s' ->
     path ∈ lock s \/ has_nul path = true \/ Unlock path ∈ microtasks s').

(** The emitter and the configuration are the same in [s'] as in [s]. *)
Definition same_config (s s' : State) : Prop :=
  events s' = events s /\ maxListeners s' = maxListeners s /\ timeout s' = timeout s.

(** [s'] is [s] with at most one more 'read' listener, added by an
    admitted [read]. *)
Definition events_step (s s' : State) : Prop :=
  maxListeners s' = maxListeners s /\ timeout s' = timeout s /\
  (events s' = events s \/
   at_capacity "read" s = false /\
   exists id, events s'
     = <["read" := listeners "read" s ++ [ReadListener id (length (promises s))]]> (events s)).

(** No listener is registered under another name than 'read'. *)
Definition only_read (s : State) : Prop :=
  forall eventName, eventName <> "read" -> events s !! eventName = None.

(** The callbacks and the delay arguments of the pending timers. *)
Definition callbacks (s : State) : list TimerCb := map snd (timers s).

Definition delays (s : State) : list (option Z) := map fst (timers s).

(** The promise a listener resolves. *)
Definition listener_target (l : Listener) : nat :=
  match l with ReadListener _ resolve => resolve end.

(** Every promise a listener, a reaction, a queued job or a read retry
    refers to is in the promise table. *)
Definition refs_ok (s : State) : Prop :=
  (forall ev l, l ∈ listeners ev s -> listener_target l < length (promises s)) /\
  (forall src tgt, (src, tgt) ∈ reactions s -> tgt < length (promises s)) /\
  (forall p st, Settle p st ∈ microtasks s -> p < length (promises s)) /\
  (forall delay path p, (delay, RetryRead path p) ∈ timers s -> p < length (promises s)).

(** The emitter is at its 'read' ceiling, and nothing that can settle a
    promise refers to a promise numbered [n0] or above: listeners and
    queued jobs resolve promises below [n0] only, and a reaction that
    targets a promise from [n0] on hangs off a pending promise from [n0]
    on. *)
Definition sealed (n0 : nat) (s : State) : Prop :=
  at_capacity "read" s = true /\
  n0 <= length (promises s) /\
  (forall ev l, l ∈ listeners ev s -> listener_target l < n0) /\
  (forall p st, Settle p st ∈ microtasks s -> p < n0) /\
  (forall src tgt, (src, tgt) ∈ reactions s -> n0 <= tgt ->
     n0 <= src /\ promises s !! src = Some Pending).

(** [s'] is sealed and has kept pending every promise from [n0] on that
    was pending in [s]. *)
Definition keeps (n0 : nat) (s s' : State) : Prop :=
  sealed n0 s' /\
  (forall p, n0 <= p -> promises s !! p = Some Pending -> promises s' !! p = Some Pending).

(** From [s] to [s'] the pending timers gained only timers whose delay
    argument is [this.timeout]. *)
Definition timers_ext (s s' : State) : Prop :=
  timeout s' = timeout s /\
  exists new, timers s' = timers s ++ new /\ Forall (fun t => fst t = timeout s) new.

(** Every promise settled in [s] is in the same state in [s']. *)
Definition stable (s s' : State) : Prop :=
  forall p st, promises s !! p = Some st -> st <> Pending -> promises s' !! p = Some st.

(** ** Further invariants *)

(** The operation names for which a public method builds an order:
    [create] and [delete] throw before they reach [new Order]. *)
Definition live_type (type : string) : Prop :=
  type = "read" \/ type = "write" \/ type = "append".

(** A retry timer holds an order under the order's own id. *)
Definition timer_live (t : option Z * TimerCb) : Prop :=
  match snd t with
  | RetryExecute order id => Order.id order = id /\ live_type (Order.type order)
  | _ => True
  end.

(** An fs call in flight was issued by the private method its order's
    type names. *)
Definition call_live (c : Private * Order) : Prop :=
  live_type (Order.type (snd c)) /\ private_of_type (Order.type (snd c)) = Some (fst c).

(** Between two steps the registry is empty, and the orders in retry
    timers and in flight are reads, writes and appends. *)
Definition sched_ok (s : State) : Prop :=
  orderStack s = [] /\ Forall timer_live (timers s) /\ Forall call_live (inflight s).

(** From [s] to [s'] no fs call left the calls in flight and every path
    newly locked has an fs call in flight, unless the fs function threw
    on it. *)
Definition backed_ext (s s' : State) : Prop :=
  (forall c, c ∈ inflight s -> c ∈ inflight s') /\
  (forall path, path ∈ lock s' ->
     path ∈ lock s \/ has_nul path = true \/ path ∈ inflight_paths s').

(** An fs call that was issued: the fs function accepted its path. *)
Definition issued (c : Private * Order) : Prop :=
  has_nul (Order.path (snd c)) = false.

(** A job that does not release a path the fs functions refuse. *)
Definition job_ok (m : Microtask) : Prop :=
  match m with
  | Unlock path => has_nul path = false
  | Settle _ _ => True
  end.

(** No fs call is in flight on a path the fs functions refuse, and no
    release of such a path is queued. *)
Definition issue_ok (s : State) : Prop :=
  Forall issued (inflight s) /\ Forall job_ok (microtasks s).

(** From [s] to [s'] no path was unlocked, and the fs calls and jobs
    added are on paths the fs functions accept. *)
Definition issue_ext (s s' : State) : Prop :=
  lock s ⊆ lock s' /\
  (exists new, inflight s' = inflight s ++ new /\ Forall issued new) /\
  (exists new, microtasks s' = microtasks s ++ new /\ Forall job_ok new).

(** The path a request names. *)
Definition request_path (r : Request) : string :=
  match r with
  | Read path | Write path _ | Create path | Delete path | Append path _ => path
  end.

(** The exceptions the scheduler lets escape: the error of a failed fs
    call, the ReferenceError of the retry closures that name the unbound
    [resolve], and the TypeError of an fs function that refuses a path. *)
Definition escapes (e : JsError) : Prop :=
  (exists code, e = HostError code) \/ e = ReferenceError "resolve" \/
  e = TypeError "ERR_INVALID_ARG_VALUE".

(** What a dispatch attempt on [path] can throw: nothing, or the
    TypeError of the fs function when [path] holds NUL. *)
Definition nul_errors (path : string) (new : list JsError) : Prop :=
  new = [] \/ has_nul path = true /\ new = [TypeError "ERR_INVALID_ARG_VALUE"].

(** * Properties *)

(** ** Path lock and dispatch *)

(** C1 (code at the failing input).  [write("f","a")], the microtask of
    l.154-156, then [write("f","b")]: the second write is dispatched while
    the first is still in flight.  The lock on "f" taken by the first
    write is gone before its fs call has completed. *)
Theorem C1_same_path_dispatches_overlap :
  let trace := [Call (Write "f" "a") "id1"; RunMicrotask; Call (Write "f" "b") "id2"] in
  (locked <$> session ∅ None None (take 1 trace)) = Some ["f"] /\
  (in_flight <$> session ∅ None None (take 1 trace)) = Some [(writeFilePrivate, "f", "a")] /\
  (locked <$> session ∅ None None (take 2 trace)) = Some [] /\
  (in_flight <$> session ∅ None None (take 2 trace)) = Some [(writeFilePrivate, "f", "a")] /\
  (in_flight <$> session ∅ None None trace)
    = Some [(writeFilePrivate, "f", "a"); (writeFilePrivate, "f", "b")] /\
  (inflight_paths <$> session ∅ None None trace) = Some ["f"; "f"].
Proof. repeat split; vm_compute; reflexivity. Qed.

(** ** Frame lemmas: which fields a runtime primitive can change *)

Lemma settle_shape p st s :
  exists P ms, settle p st s = set_microtasks (microtasks s ++ ms) (set_promises P s).
Proof.
  unfold settle.
  destruct (promises s !! p) as [[]|]; eauto;
    exists (promises s), []; rewrite app_nil_r; by destruct s.
Qed.

Lemma call_listener_shape data s l :
  exists P ms U,
    call_listener data s l
      = set_uncaught U (set_microtasks (microtasks s ++ ms) (set_promises P s)).
Proof.
  destruct l as [oid r]. unfold call_listener.
  destruct (payload_order data) as [order|].
  - destruct (String.eqb _ _).
    + destruct (settle_shape r (Fulfilled (payload_content data)) s) as (P & ms & ->).
      exists P, ms, (uncaught s). reflexivity.
    + exists (promises s), [], (uncaught s). rewrite app_nil_r. by destruct s.
  - exists (promises s), [],
      (uncaught s ++ [TypeError "Cannot read properties of undefined (reading 'id')"]).
    rewrite app_nil_r. by destruct s.
Qed.

Lemma foldl_call_listener_shape data ls s :
  exists P ms U,
    foldl (call_listener data) s ls
      = set_uncaught U (set_microtasks (microtasks s ++ ms) (set_promises P s)).
Proof.
  revert s. induction ls as [|l ls IH]; intros s; simpl.
  - exists (promises s), [], (uncaught s). rewrite app_nil_r. by destruct s.
  - destruct (call_listener_shape data s l) as (P & ms & U & ->).
    destruct (IH (set_uncaught U (set_microtasks (microtasks s ++ ms) (set_promises P s))))
      as (P' & ms' & U' & ->).
    exists P', (ms ++ ms'), U'. simpl. by rewrite app_assoc.
Qed.

Lemma emit_shape ev data s :
  exists P ms U,
    emit ev data s = set_uncaught U (set_microtasks (microtasks s ++ ms) (set_promises P s)).
Proof.
  unfold emit. destruct (listeners ev s) as [|l ls] eqn:E.
  - destruct (String.eqb ev "error").
    + exists (promises s), [], (uncaught s ++ [payload_error data]).
      rewrite app_nil_r. by destruct s.
    + exists (promises s), [], (uncaught s). rewrite app_nil_r. by destruct s.
  - apply foldl_call_listener_shape.
Qed.

(** ** Orders are well typed *)

Lemma newOrder_ok rnd path type data order :
  newOrder rnd path type data = inl order -> order_ok order.
Proof.
  unfold newOrder, order_ok. destruct (Order.valid_type type) eqn:E; [|done].
  by intros [= <-].
Qed.

Lemma remove_first_Forall (P : Order -> Prop) id stack :
  Forall P stack -> Forall P (WorkingStack.remove_first id stack).
Proof.
  induction 1 as [|o stack Ho Hs IH]; simpl; [constructor|].
  destruct (WorkingStack.has_id id o); [done|by constructor].
Qed.

Lemma find_Forall (P : Order -> Prop) f stack order :
  Forall P stack -> find f stack = Some order -> P order.
Proof.
  induction 1 as [|o stack Ho Hs IH]; simpl; [done|].
  destruct (f o); [by intros [= <-]|done].
Qed.

Lemma executeOrder_types_ok id s : types_ok s -> types_ok (executeOrder id s).
Proof.
  intros (Hs & Ht & Hi). unfold executeOrder, WorkingStack.getOrderById.
  destruct (find _ _) as [order|] eqn:E; [|done].
  assert (order_ok order) as Ho by (eapply find_Forall; eauto).
  simpl. destruct (decide _).
  - split_and!; simpl; [by apply remove_first_Forall| |done].
    apply Forall_app; split; [done|]. by repeat constructor.
  - destruct (private_of_type _).
    + unfold dispatch, private_call. destruct (has_nul _); simpl.
      * split_and!; simpl; [by apply remove_first_Forall|done|done].
      * split_and!; simpl; [by apply remove_first_Forall|done|].
        apply Forall_app; split; [done|]. by repeat constructor.
    + destruct (emit_shape "error" (ErrData (UnknownOrderType order))
        (set_lock (lock s ∪ {[Order.path order]})
           (set_orderStack (WorkingStack.remove_first id (orderStack s)) s)))
        as (P & M & U & ->).
      split_and!; simpl; [by apply remove_first_Forall|done|done].
Qed.

Lemma orderExecution_types_ok order s :
  order_ok order -> types_ok s -> types_ok (orderExecution order s).
Proof.
  intros Ho (Hs & Ht & Hi). apply executeOrder_types_ok. split_and!; simpl; [|done|done].
  apply Forall_app; split; [done|by repeat constructor].
Qed.

Lemma setTimeout_types_ok cb delay s :
  timer_ok (delay, cb) -> types_ok s -> types_ok (setTimeout cb delay s).
Proof.
  intros Hcb (Hs & Ht & Hi). split_and!; simpl; [done| |done].
  apply Forall_app; split; [done|by repeat constructor].
Qed.

Lemma read_types_ok rnd path s : types_ok s -> types_ok (snd (read rnd path s)).
Proof.
  intros H. unfold read, new_promise.
  destruct (at_capacity _ _); simpl.
  - by apply setTimeout_types_ok.
  - match goal with |- context [orderExecution ?o ?s0] =>
      assert (types_ok (orderExecution o s0)) as (? & ? & ?)
        by (by apply orderExecution_types_ok)
    end.
    by split_and!.
Qed.

Lemma write_types_ok rnd path content s :
  types_ok s -> types_ok (snd (write rnd path content s)).
Proof.
  intros H. unfold write, new_promise.
  destruct (at_capacity _ _); simpl.
  - by apply (setTimeout_types_ok (RetryWrite path)).
  - by apply orderExecution_types_ok.
Qed.

Lemma append_types_ok rnd path content s :
  types_ok s -> types_ok (snd (append rnd path content s)).
Proof.
  intros H. unfold append, new_promise.
  destruct (at_capacity _ _); simpl.
  - by apply (setTimeout_types_ok (RetryAppend path)).
  - by apply orderExecution_types_ok.
Qed.

Lemma create_types_ok path s : types_ok s -> types_ok (snd (create path s)).
Proof.
  intros H. unfold create, new_promise.
  destruct (at_capacity _ _); simpl; [|done].
  by apply (setTimeout_types_ok (RetryCreate path)).
Qed.

Lemma delete_types_ok path s : types_ok s -> types_ok (snd (delete_ path s)).
Proof.
  intros H. unfold delete_, new_promise.
  destruct (at_capacity _ _); simpl; [|done].
  by apply (setTimeout_types_ok (RetryDelete path)).
Qed.

Lemma call_types_ok r rnd s : types_ok s -> types_ok (snd (call r rnd s)).
Proof.
  destruct r; simpl;
    auto using read_types_ok, write_types_ok, append_types_ok, create_types_ok, delete_types_ok.
Qed.

Lemma retry_as_read_types_ok rnd path s :
  types_ok s -> types_ok (retry_as_read rnd path s).
Proof. intros H. by apply (read_types_ok rnd path) in H. Qed.

Lemma then_forward_types_ok src tgt s : types_ok s -> types_ok (then_forward src tgt s).
Proof. unfold then_forward. by destruct (promises s !! src) as [[]|]. Qed.

Lemma run_timer_types_ok cb rnd s :
  timer_ok (None, cb) -> types_ok s -> types_ok (run_timer cb rnd s).
Proof.
  intros Hcb H. destruct cb; simpl; try by apply retry_as_read_types_ok.
  - destruct (read rnd path s) as [p' s'] eqn:E.
    apply then_forward_types_ok. change s' with (snd (p', s')). rewrite <- E.
    by apply read_types_ok.
  - apply executeOrder_types_ok. destruct H as (Hs & Ht & Hi).
    split_and!; simpl; [|done|done].
    apply Forall_app; split; [done|by repeat constructor].
Qed.

Lemma complete_types_ok fn order fault s : types_ok s -> types_ok (complete fn order fault s).
Proof.
  intros H. unfold complete, private_callback.
  destruct (fs_perform _ _ _ _) as [[content|e] fsys].
  - destruct (success_event _ _ _) as [ev data].
    by destruct (emit_shape ev data (set_files fsys s)) as (P & M & U & ->).
  - by destruct (emit_shape "error" (ErrData e) (set_files fsys s)) as (P & M & U & ->).
Qed.

Lemma run_microtask_types_ok m s : types_ok s -> types_ok (run_microtask m s).
Proof.
  intros H. destruct m as [path|p st]; simpl; [done|].
  by destruct (settle_shape p st s) as (P & M & ->).
Qed.

Lemma Forall_delete_idx {A} (P : A -> Prop) (i : nat) (l : list A) :
  Forall P l -> Forall P (delete i l).
Proof.
  intros H. apply Forall_forall. intros x Hx.
  rewrite Forall_forall in H. apply H.
  by eapply list_elem_of_delete_inv.
Qed.

Lemma step_types_ok l s s' : types_ok s -> step l s = Some s' -> types_ok s'.
Proof.
  intros H. destruct l as [r rnd| |i rnd|i fault]; simpl.
  - intros [= <-]. by apply call_types_ok.
  - destruct (microtasks s) as [|m rest] eqn:E; [done|].
    intros [= <-]. by apply run_microtask_types_ok.
  - destruct (microtasks s); [|done].
    destruct (timers s !! i) as [[delay cb]|] eqn:E; [|done].
    intros [= <-]. destruct H as (Hs & Ht & Hi). apply run_timer_types_ok.
    + rewrite Forall_forall in Ht. apply (Ht (delay, cb)).
      by eapply list_elem_of_lookup_2.
    + split_and!; simpl; [done| |done]. by apply Forall_delete_idx.
  - destruct (microtasks s); [|done].
    destruct (inflight s !! i) as [[fn order]|] eqn:E; [|done].
    intros [= <-]. apply complete_types_ok. destruct H as (Hs & Ht & Hi).
    split_and!; simpl; [done|done|]. by apply Forall_delete_idx.
Qed.

Lemma constructor_types_ok fsys m t s : constructor fsys m t = inl s -> types_ok s.
Proof.
  unfold constructor. destruct (_ <? _)%Z; [done|].
  intros [= <-]. split_and!; constructor.
Qed.

Lemma reachable_types_ok s : reachable s -> types_ok s.
Proof.
  induction 1 as [fsys m t s H|l s s' _ IH H].
  - by eapply constructor_types_ok.
  - by eapply step_types_ok.
Qed.

Lemma run_reachable ls s s' : reachable s -> run ls s = Some s' -> reachable s'.
Proof.
  revert s. induction ls as [|l ls IH]; intros s Hs; simpl.
  - by intros [= <-].
  - destruct (step l s) as [s1|] eqn:E; [|done].
    apply IH. by eapply reachable_step.
Qed.

Lemma session_reachable fsys m t ls s : session fsys m t ls = Some s -> reachable s.
Proof.
  unfold session. destruct (constructor fsys m t) as [s0|] eqn:E; [|done].
  apply run_reachable. by eapply reachable_new.
Qed.

Lemma valid_type_kinds type : Order.valid_type type = true <-> type ∈ kinds.
Proof.
  unfold Order.valid_type, kinds. rewrite !elem_of_cons, elem_of_nil.
  destruct (String.eqb_spec type "read") as [?|?], (String.eqb_spec type "write") as [?|?],
    (String.eqb_spec type "delete") as [?|?], (String.eqb_spec type "create") as [?|?],
    (String.eqb_spec type "append") as [?|?]; simpl; intuition congruence.
Qed.

Lemma types_ok_held s order : types_ok s -> order ∈ held_orders s -> order_ok order.
Proof.
  intros (Hs & Ht & Hi). unfold held_orders, timer_orders.
  rewrite !elem_of_app, list_elem_of_omap, list_elem_of_fmap.
  rewrite Forall_forall in Hs. rewrite Forall_forall in Ht. rewrite Forall_forall in Hi.
  intros [?|[([delay cb] & Hin & Hcb)|([fn o] & -> & Hin)]]; [by apply Hs| |by apply (Hi _ Hin)].
  simpl in Hcb. destruct cb; try done. injection Hcb as <-. apply (Ht _ Hin).
Qed.

(** C7.  [new Order] succeeds exactly on the five operation names and
    throws on any other string, before the order exists; and in every
    state of the scheduler every order it holds (in the registry, in a
    retry timer that will push it again, or in flight) has one of the five
    names. *)
Theorem C7_order_kind_checked_at_construction (rnd path type data : string) :
  (type ∈ kinds -> newOrder rnd path type data = inl (Order.mk path type data rnd)) /\
  (type ∉ kinds ->
     newOrder rnd path type data
       = inr (Error "type must be read, write, delete, create or append")) /\
  (forall s order, reachable s -> order ∈ held_orders s -> Order.type order ∈ kinds).
Proof.
  split_and!.
  - intros H%valid_type_kinds. unfold newOrder. by rewrite H.
  - intros H. unfold newOrder. destruct (Order.valid_type type) eqn:E; [|done].
    by apply valid_type_kinds in E.
  - intros s order Hs Ho. apply valid_type_kinds.
    eapply types_ok_held; [by apply reachable_types_ok|done].
Qed.

Lemma C7_order_kind_checked_at_construction_witness :
  newOrder "r1" "f" "append" "x" = inl (Order.mk "f" "append" "x" "r1") /\
  newOrder "r1" "f" "chmod" "x"
    = inr (Error "type must be read, write, delete, create or append") /\
  from_option (fun s => forall order, order ∈ held_orders s -> Order.type order ∈ kinds) False
    (session ∅ None None [Call (Write "f" "a") "id1"; Call (Write "f" "b") "id2"]).
Proof.
  split_and!.
  - apply (C7_order_kind_checked_at_construction "r1" "f" "append" "x").
    apply (bool_decide_unpack _). vm_compute. exact I.
  - apply (C7_order_kind_checked_at_construction "r1" "f" "chmod" "x").
    apply (bool_decide_unpack _). vm_compute. exact I.
  - destruct (session ∅ None None [Call (Write "f" "a") "id1"; Call (Write "f" "b") "id2"])
      as [s|] eqn:E; simpl.
    + intros order. apply (C7_order_kind_checked_at_construction "" "" "" "").
      eapply session_reachable, E.
    + vm_compute in E. discriminate E.
Defined.

(** ** The lock is released by a microtask queued at dispatch *)

Lemma lock_ext_refl s : lock_ext s s.
Proof. split; auto. Qed.

(** An update of fields other than [lock] and [microtasks]. *)
Ltac lock_ext_frame := split; simpl; auto.

Lemma lock_ext_trans s1 s2 s3 : lock_ext s1 s2 -> lock_ext s2 s3 -> lock_ext s1 s3.
Proof.
  intros [Hm Hl] [Hm' Hl']. split; [auto|].
  intros path [H|[H|H]]%Hl'; [|auto|auto]. apply Hl in H as [H|[H|H]]; auto.
Qed.

Lemma lock_ext_covered s s' : lock_covered s -> lock_ext s s' -> lock_covered s'.
Proof.
  intros Hc [Hm Hl] path [H|[H|H]]%Hl Hn; [auto|congruence|done].
Qed.

Lemma lock_ext_same s s' :
  lock s' = lock s -> (exists ms, microtasks s' = microtasks s ++ ms) -> lock_ext s s'.
Proof.
  intros Hl [ms Hm]. split.
  - intros m H. rewrite Hm. apply elem_of_app. auto.
  - intros path H. left. by rewrite <- Hl.
Qed.

Lemma settle_lock_ext p st s : lock_ext s (settle p st s).
Proof.
  destruct (settle_shape p st s) as (P & ms & ->). apply lock_ext_same; simpl; eauto.
Qed.

Lemma emit_lock_ext ev data s : lock_ext s (emit ev data s).
Proof.
  destruct (emit_shape ev data s) as (P & ms & U & ->). apply lock_ext_same; simpl; eauto.
Qed.

Lemma order_ok_private order :
  order_ok order -> exists fn, private_of_type (Order.type order) = Some fn.
Proof.
  unfold order_ok, Order.valid_type, private_of_type.
  destruct (String.eqb _ "read"); [eauto|].
  destruct (String.eqb _ "write"); [eauto|].
  destruct (String.eqb _ "delete"); [eauto|].
  destruct (String.eqb _ "create"); [eauto|].
  destruct (String.eqb _ "append"); [eauto|done].
Qed.

Lemma executeOrder_lock_ext id s : types_ok s -> lock_ext s (executeOrder id s).
Proof.
  intros (Hs & _ & _). unfold executeOrder, WorkingStack.getOrderById.
  destruct (find _ _) as [order|] eqn:E; [|apply lock_ext_refl].
  assert (order_ok order) as [fn Hfn]%order_ok_private by (eapply find_Forall; eauto).
  simpl. destruct (decide _).
  - apply lock_ext_same; simpl; [done|]. exists []. by rewrite app_nil_r.
  - rewrite Hfn. unfold dispatch, private_call.
    destruct (has_nul (Order.path order)) eqn:Hn; split; simpl.
    + auto.
    + intros path [H|H]%elem_of_union; [auto|].
      apply elem_of_singleton in H as ->. auto.
    + intros m H. apply elem_of_app. auto.
    + intros path [H|H]%elem_of_union; [auto|].
      apply elem_of_singleton in H as ->.
      right. right. apply elem_of_app. right. apply list_elem_of_singleton. reflexivity.
Qed.

Lemma orderExecution_lock_ext order s :
  order_ok order -> types_ok s -> lock_ext s (orderExecution order s).
Proof.
  intros Ho (Hs & Ht & Hi).
  apply (lock_ext_trans _ (set_orderStack (WorkingStack.push order (orderStack s)) s)).
  - lock_ext_frame.
  - apply executeOrder_lock_ext. split_and!; simpl; [|done|done].
    apply Forall_app; split; [done|by repeat constructor].
Qed.

Lemma read_lock_ext rnd path s : types_ok s -> lock_ext s (snd (read rnd path s)).
Proof.
  intros H. unfold read, new_promise.
  destruct (at_capacity _ _); simpl; [lock_ext_frame|].
  match goal with |- context [orderExecution ?o ?s0] =>
    assert (lock_ext s0 (orderExecution o s0)) as [? ?]
      by (by apply orderExecution_lock_ext)
  end.
  by split.
Qed.

Lemma write_lock_ext rnd path content s :
  types_ok s -> lock_ext s (snd (write rnd path content s)).
Proof.
  intros H. unfold write, new_promise.
  destruct (at_capacity _ _); simpl; [lock_ext_frame|].
  match goal with |- context [orderExecution ?o ?s0] =>
    assert (lock_ext s0 (orderExecution o s0)) as [? ?]
      by (by apply orderExecution_lock_ext)
  end.
  by split.
Qed.

Lemma append_lock_ext rnd path content s :
  types_ok s -> lock_ext s (snd (append rnd path content s)).
Proof.
  intros H. unfold append, new_promise.
  destruct (at_capacity _ _); simpl; [lock_ext_frame|].
  match goal with |- context [orderExecution ?o ?s0] =>
    assert (lock_ext s0 (orderExecution o s0)) as [? ?]
      by (by apply orderExecution_lock_ext)
  end.
  by split.
Qed.

Lemma call_lock_ext r rnd s : types_ok s -> lock_ext s (snd (call r rnd s)).
Proof.
  intros H. destruct r; simpl;
    auto using read_lock_ext, write_lock_ext, append_lock_ext.
  - unfold create, new_promise. destruct (at_capacity _ _); lock_ext_frame.
  - unfold delete_, new_promise. destruct (at_capacity _ _); lock_ext_frame.
Qed.

Lemma then_forward_lock_ext src tgt s : lock_ext s (then_forward src tgt s).
Proof.
  unfold then_forward. destruct (promises s !! src) as [[]|];
    try (apply lock_ext_same; simpl; by eauto); lock_ext_frame.
Qed.

Lemma run_timer_lock_ext cb rnd s :
  timer_ok (None, cb) -> types_ok s -> lock_ext s (run_timer cb rnd s).
Proof.
  intros Hcb H.
  destruct cb; simpl; try by apply (read_lock_ext rnd path) in H.
  - destruct (read rnd path s) as [p' s'] eqn:E.
    eapply lock_ext_trans; [|apply then_forward_lock_ext].
    change s' with (snd (p', s')). rewrite <- E. by apply read_lock_ext.
  - apply (read_lock_ext rnd path (set_console (console s ++ ["retrying"]) s)) in H.
    exact H.
  - apply (lock_ext_trans _ (set_orderStack (WorkingStack.push order (orderStack s)) s));
      [lock_ext_frame|].
    apply executeOrder_lock_ext. destruct H as (Hs & Ht & Hi).
    split_and!; simpl; [|done|done].
    apply Forall_app; split; [done|by repeat constructor].
Qed.

Lemma complete_lock_ext fn order fault s : lock_ext s (complete fn order fault s).
Proof.
  unfold complete, private_callback.
  destruct (fs_perform _ _ _ _) as [[content|e] fsys].
  - destruct (success_event _ _ _) as [ev data].
    apply (lock_ext_trans _ (set_files fsys s)); [lock_ext_frame|apply emit_lock_ext].
  - apply (lock_ext_trans _ (set_files fsys s)); [lock_ext_frame|apply emit_lock_ext].
Qed.

Lemma step_lock_covered l s s' :
  types_ok s -> lock_covered s -> step l s = Some s' -> lock_covered s'.
Proof.
  intros Ht Hc. destruct l as [r rnd| |i rnd|i fault]; simpl.
  - intros [= <-]. eapply lock_ext_covered; [done|by apply call_lock_ext].
  - destruct (microtasks s) as [|m rest] eqn:E; [done|].
    intros [= <-]. destruct m as [path|p st]; simpl.
    + intros q [Hq Hne]%elem_of_difference Hn.
      pose proof (Hc q Hq Hn) as Hu. rewrite E in Hu.
      apply elem_of_cons in Hu as [[= ->]|Hu]; [|done].
      exfalso. apply Hne. by apply elem_of_singleton.
    + eapply lock_ext_covered; [|apply settle_lock_ext].
      intros q Hq Hn. simpl in *. pose proof (Hc q Hq Hn) as Hu. rewrite E in Hu.
      by apply elem_of_cons in Hu as [[=]|Hu].
  - destruct (microtasks s); [|done].
    destruct (timers s !! i) as [[delay cb]|] eqn:E; [|done].
    intros [= <-]. destruct Ht as (Hs & Ht & Hi).
    eapply lock_ext_covered; [|apply run_timer_lock_ext].
    + done.
    + rewrite Forall_forall in Ht. apply (Ht (delay, cb)).
      by eapply list_elem_of_lookup_2.
    + split_and!; simpl; [done| |done]. by apply Forall_delete_idx.
  - destruct (microtasks s); [|done].
    destruct (inflight s !! i) as [[fn order]|] eqn:E; [|done].
    intros [= <-]. eapply lock_ext_covered; [|apply complete_lock_ext]. done.
Qed.

Lemma reachable_lock_covered s : reachable s -> lock_covered s.
Proof.
  induction 1 as [fsys m t s H|l s s' Hr IH H].
  - unfold constructor in H. destruct (_ <? _)%Z; [done|].
    injection H as <-. intros path Hp. simpl in Hp. by apply not_elem_of_empty in Hp.
  - eapply step_lock_covered; eauto using reachable_types_ok.
Qed.

(** Whenever a timer or an fs callback can run (the microtask queue is
    empty), no path whose fs call was issued is locked: the lock taken at
    dispatch never lasts until the completion of the fs call.  The paths
    that are locked then are paths the fs function threw on. *)
Lemma lock_released_before_completion s :
  reachable s -> microtasks s = [] ->
  forall path, path ∈ lock s -> has_nul path = true.
Proof.
  intros Hr Hm path Hp. destruct (has_nul path) eqn:Hn; [done|].
  pose proof (reachable_lock_covered s Hr path Hp Hn) as H.
  rewrite Hm in H. by apply elem_of_nil in H.
Qed.

(** ** The emitter: who registers listeners *)

Lemma same_config_refl s : same_config s s.
Proof. by split_and!. Qed.

Lemma same_config_trans s1 s2 s3 :
  same_config s1 s2 -> same_config s2 s3 -> same_config s1 s3.
Proof. intros (? & ? & ?) (? & ? & ?). split_and!; congruence. Qed.

Ltac same_config_frame := split_and!; reflexivity.

Lemma settle_same_config p st s : same_config s (settle p st s).
Proof. destruct (settle_shape p st s) as (P & ms & ->). same_config_frame. Qed.

Lemma emit_same_config ev data s : same_config s (emit ev data s).
Proof. destruct (emit_shape ev data s) as (P & ms & U & ->). same_config_frame. Qed.

Lemma executeOrder_same_config id s : same_config s (executeOrder id s).
Proof.
  unfold executeOrder, WorkingStack.getOrderById.
  destruct (find _ _) as [order|]; [|apply same_config_refl].
  simpl. destruct (decide _); [same_config_frame|].
  destruct (private_of_type _);
    [unfold dispatch, private_call; destruct (has_nul _); same_config_frame|].
  eapply same_config_trans; [|apply emit_same_config]. same_config_frame.
Qed.

Lemma orderExecution_same_config order s : same_config s (orderExecution order s).
Proof.
  eapply same_config_trans; [|apply executeOrder_same_config]. same_config_frame.
Qed.

Lemma write_same_config rnd path content s : same_config s (snd (write rnd path content s)).
Proof.
  unfold write, new_promise. destruct (at_capacity _ _); simpl; [same_config_frame|].
  eapply same_config_trans; [apply orderExecution_same_config|]. same_config_frame.
Qed.

Lemma append_same_config rnd path content s : same_config s (snd (append rnd path content s)).
Proof.
  unfold append, new_promise. destruct (at_capacity _ _); simpl; [same_config_frame|].
  eapply same_config_trans; [apply orderExecution_same_config|]. same_config_frame.
Qed.

Lemma create_same_config path s : same_config s (snd (create path s)).
Proof. unfold create, new_promise. destruct (at_capacity _ _); same_config_frame. Qed.

Lemma delete_same_config path s : same_config s (snd (delete_ path s)).
Proof. unfold delete_, new_promise. destruct (at_capacity _ _); same_config_frame. Qed.

Lemma same_config_events_step s s' : same_config s s' -> events_step s s'.
Proof. intros (? & ? & ?). split_and!; auto. Qed.

Lemma events_step_before s0 s s' :
  events s0 = events s -> maxListeners s0 = maxListeners s -> timeout s0 = timeout s ->
  promises s0 = promises s ->
  events_step s s' -> events_step s0 s'.
Proof.
  intros He Hm Ht Hp (? & ? & H). unfold events_step, at_capacity, listenerCount, listeners,
    getMaxListeners in *.
  rewrite He, Hm, Ht, Hp. auto.
Qed.

Lemma events_step_after s s1 s' :
  events_step s s1 -> same_config s1 s' -> events_step s s'.
Proof.
  intros (? & ? & H) (He & ? & ?). split_and!; [congruence|congruence|].
  rewrite He. exact H.
Qed.

(** l.46-63: an admitted [read] adds one listener, a [read] at capacity
    adds none. *)
Lemma read_events rnd path s :
  events (snd (read rnd path s))
  = if at_capacity "read" s
    then events s
    else <["read" := listeners "read" s ++ [ReadListener rnd (length (promises s))]]> (events s).
Proof.
  unfold read, new_promise.
  replace (at_capacity "read" (set_promises (promises s ++ [Pending]) s))
    with (at_capacity "read" s) by reflexivity.
  destruct (at_capacity "read" s); simpl; [done|].
  match goal with |- context [orderExecution ?o ?s0] =>
    destruct (orderExecution_same_config o s0) as (He & _ & _)
  end.
  unfold on, listeners. simpl. by rewrite He.
Qed.

Lemma read_events_step rnd path s : events_step s (snd (read rnd path s)).
Proof.
  split_and!.
  - unfold read, new_promise. destruct (at_capacity _ _); simpl; [done|].
    match goal with |- context [orderExecution ?o ?s0] =>
      destruct (orderExecution_same_config o s0) as (_ & Hm & _)
    end.
    exact Hm.
  - unfold read, new_promise. destruct (at_capacity _ _); simpl; [done|].
    match goal with |- context [orderExecution ?o ?s0] =>
      destruct (orderExecution_same_config o s0) as (_ & _ & Ht)
    end.
    exact Ht.
  - rewrite read_events. destruct (at_capacity "read" s); eauto.
Qed.

Lemma call_events_step r rnd s : events_step s (snd (call r rnd s)).
Proof.
  destruct r; simpl; [apply read_events_step|..]; apply same_config_events_step;
    auto using write_same_config, append_same_config, create_same_config, delete_same_config.
Qed.

Lemma then_forward_same_config src tgt s : same_config s (then_forward src tgt s).
Proof. unfold then_forward. destruct (promises s !! src) as [[]|]; same_config_frame. Qed.

Lemma run_timer_events_step cb rnd s : events_step s (run_timer cb rnd s).
Proof.
  destruct cb; simpl.
  - destruct (read rnd path s) as [p' s'] eqn:E.
    eapply events_step_after; [|apply then_forward_same_config].
    change s' with (snd (p', s')). rewrite <- E. apply read_events_step.
  - eapply (events_step_before _ (set_console (console s ++ ["retrying"]) s)); try done.
    eapply events_step_after; [apply (read_events_step rnd path)|]. same_config_frame.
  - eapply events_step_after; [apply (read_events_step rnd path)|]. same_config_frame.
  - eapply events_step_after; [apply (read_events_step rnd path)|]. same_config_frame.
  - eapply events_step_after; [apply (read_events_step rnd path)|]. same_config_frame.
  - apply same_config_events_step.
    eapply same_config_trans; [|apply executeOrder_same_config]. same_config_frame.
Qed.

Lemma complete_same_config fn order fault s : same_config s (complete fn order fault s).
Proof.
  unfold complete, private_callback.
  destruct (fs_perform _ _ _ _) as [[content|e] fsys].
  - destruct (success_event _ _ _) as [ev data].
    eapply same_config_trans; [|apply emit_same_config]. same_config_frame.
  - eapply same_config_trans; [|apply emit_same_config]. same_config_frame.
Qed.

Lemma run_microtask_same_config m s : same_config s (run_microtask m s).
Proof. destruct m; simpl; [same_config_frame|apply settle_same_config]. Qed.

Lemma step_events_step l s s' : step l s = Some s' -> events_step s s'.
Proof.
  destruct l as [r rnd| |i rnd|i fault]; simpl.
  - intros [= <-]. apply call_events_step.
  - destruct (microtasks s) as [|m rest]; [done|]. intros [= <-].
    apply same_config_events_step.
    eapply same_config_trans; [|apply run_microtask_same_config]. same_config_frame.
  - destruct (microtasks s); [|done].
    destruct (timers s !! i) as [[delay cb]|]; [|done]. intros [= <-].
    eapply (events_step_before _ (set_timers (delete i (timers s)) s)); try done.
    apply run_timer_events_step.
  - destruct (microtasks s); [|done].
    destruct (inflight s !! i) as [[fn order]|]; [|done]. intros [= <-].
    apply same_config_events_step.
    eapply same_config_trans; [|apply complete_same_config]. same_config_frame.
Qed.

Lemma reachable_only_read s : reachable s -> only_read s.
Proof.
  induction 1 as [fsys m t s H|l s s' Hr IH H].
  - unfold constructor in H. destruct (_ <? _)%Z; [done|].
    injection H as <-. intros ev _. apply lookup_empty.
  - apply step_events_step in H as (_ & _ & [He|(_ & id & He)]);
      intros ev Hev; rewrite He; [by apply IH|].
    rewrite lookup_insert_ne by done. by apply IH.
Qed.

Lemma reachable_timeout_undefined s : reachable s -> timeout s = None.
Proof.
  induction 1 as [fsys m t s H|l s s' Hr IH H].
  - unfold constructor in H. destruct (_ <? _)%Z; [done|]. by injection H as <-.
  - apply step_events_step in H as (_ & Ht & _). congruence.
Qed.

(** ** Every timer is set with [this.timeout] *)

Lemma timers_ext_refl s : timers_ext s s.
Proof. split; [done|]. exists []. by rewrite app_nil_r. Qed.

Lemma timers_ext_trans s1 s2 s3 : timers_ext s1 s2 -> timers_ext s2 s3 -> timers_ext s1 s3.
Proof.
  intros (Ht & new & Hn & Hf) (Ht' & new' & Hn' & Hf'). split; [congruence|].
  exists (new ++ new'). split; [by rewrite Hn', Hn, app_assoc|].
  apply Forall_app. split; [done|]. by rewrite <- Ht.
Qed.

Lemma timers_ext_same s s' :
  timeout s' = timeout s -> timers s' = timers s -> timers_ext s s'.
Proof. intros Ht Hn. split; [done|]. exists []. by rewrite app_nil_r. Qed.

Lemma setTimeout_timers_ext cb s : timers_ext s (setTimeout cb (timeout s) s).
Proof. split; [done|]. exists [(timeout s, cb)]. split; [done|]. by repeat constructor. Qed.

Lemma emit_timers_ext ev data s : timers_ext s (emit ev data s).
Proof. destruct (emit_shape ev data s) as (P & ms & U & ->). by apply timers_ext_same. Qed.

Lemma executeOrder_timers_ext id s : timers_ext s (executeOrder id s).
Proof.
  unfold executeOrder, WorkingStack.getOrderById.
  destruct (find _ _) as [order|]; [|apply timers_ext_refl].
  simpl. destruct (decide _).
  - match goal with |- timers_ext _ (setTimeout ?cb _ ?s0) =>
      apply (timers_ext_trans _ s0); [by apply timers_ext_same|apply (setTimeout_timers_ext cb s0)]
    end.
  - destruct (private_of_type _);
      [unfold dispatch, private_call; destruct (has_nul _); by apply timers_ext_same|].
    match goal with |- timers_ext _ (emit _ _ ?s0) =>
      apply (timers_ext_trans _ s0); [by apply timers_ext_same|apply emit_timers_ext]
    end.
Qed.

Lemma orderExecution_timers_ext order s : timers_ext s (orderExecution order s).
Proof.
  unfold orderExecution.
  eapply timers_ext_trans; [|apply executeOrder_timers_ext]. by apply timers_ext_same.
Qed.

Lemma read_timers_ext rnd path s : timers_ext s (snd (read rnd path s)).
Proof.
  unfold read, new_promise. destruct (at_capacity _ _); simpl.
  - match goal with |- timers_ext _ (setTimeout ?cb _ ?s0) =>
      apply (timers_ext_trans _ s0); [by apply timers_ext_same|apply (setTimeout_timers_ext cb s0)]
    end.
  - match goal with |- context [orderExecution ?o ?s0] =>
      apply (timers_ext_trans _ s0); [by apply timers_ext_same|];
      apply (timers_ext_trans _ (orderExecution o s0)); [apply orderExecution_timers_ext|]
    end.
    by apply timers_ext_same.
Qed.

Lemma call_timers_ext r rnd s : timers_ext s (snd (call r rnd s)).
Proof.
  destruct r; simpl; [apply read_timers_ext|..].
  - unfold write, new_promise. destruct (at_capacity _ _); simpl.
    + apply (timers_ext_trans _ (setTimeout (RetryWrite path) (timeout s) s));
        [apply setTimeout_timers_ext|by apply timers_ext_same].
    + eapply timers_ext_trans; [apply orderExecution_timers_ext|by apply timers_ext_same].
  - unfold create, new_promise. destruct (at_capacity _ _); simpl.
    + apply (timers_ext_trans _ (setTimeout (RetryCreate path) (timeout s) s));
        [apply setTimeout_timers_ext|by apply timers_ext_same].
    + by apply timers_ext_same.
  - unfold delete_, new_promise. destruct (at_capacity _ _); simpl.
    + apply (timers_ext_trans _ (setTimeout (RetryDelete path) (timeout s) s));
        [apply setTimeout_timers_ext|by apply timers_ext_same].
    + by apply timers_ext_same.
  - unfold append, new_promise. destruct (at_capacity _ _); simpl.
    + apply (timers_ext_trans _ (setTimeout (RetryAppend path) (timeout s) s));
        [apply setTimeout_timers_ext|by apply timers_ext_same].
    + eapply timers_ext_trans; [apply orderExecution_timers_ext|by apply timers_ext_same].
Qed.

Lemma then_forward_timers_ext src tgt s : timers_ext s (then_forward src tgt s).
Proof.
  unfold then_forward. destruct (promises s !! src) as [[]|]; by apply timers_ext_same.
Qed.

Lemma run_timer_timers_ext cb rnd s : timers_ext s (run_timer cb rnd s).
Proof.
  destruct cb; simpl.
  - destruct (read rnd path s) as [p' s'] eqn:E.
    assert (s' = snd (read rnd path s)) as -> by (by rewrite E).
    eapply timers_ext_trans; [apply read_timers_ext|apply then_forward_timers_ext].
  - apply (timers_ext_trans _ (set_console (console s ++ ["retrying"]) s));
      [by apply timers_ext_same|].
    eapply timers_ext_trans; [apply (read_timers_ext rnd path)|by apply timers_ext_same].
  - eapply timers_ext_trans; [apply (read_timers_ext rnd path)|by apply timers_ext_same].
  - eapply timers_ext_trans; [apply (read_timers_ext rnd path)|by apply timers_ext_same].
  - eapply timers_ext_trans; [apply (read_timers_ext rnd path)|by apply timers_ext_same].
  - eapply timers_ext_trans; [|apply executeOrder_timers_ext]. by apply timers_ext_same.
Qed.

Lemma complete_timers_ext fn order fault s : timers_ext s (complete fn order fault s).
Proof.
  unfold complete, private_callback.
  destruct (fs_perform _ _ _ _) as [[content|e] fsys].
  - destruct (success_event _ _ _) as [ev data].
    eapply timers_ext_trans; [|apply emit_timers_ext]. by apply timers_ext_same.
  - eapply timers_ext_trans; [|apply emit_timers_ext]. by apply timers_ext_same.
Qed.

Lemma timers_ext_undefined s s' :
  timeout s = None -> Forall (fun t => fst t = None) (timers s) ->
  timers_ext s s' ->
  timeout s' = None /\ Forall (fun t => fst t = None) (timers s').
Proof.
  intros Ht Hf (Ht' & new & -> & Hn). split; [congruence|].
  apply Forall_app. split; [done|]. by rewrite Ht in Hn.
Qed.

(** In every state of the scheduler [this.timeout] is undefined and so is
    the delay argument of every pending timer: Node waits 1 ms for each
    retry, whatever was passed to the constructor. *)
Lemma retry_delay_is_undefined s :
  reachable s ->
  timeout s = None /\ Forall (fun t => fst t = None /\ timer_ms (fst t) = 1%Z) (timers s).
Proof.
  intros Hr.
  assert (timeout s = None /\ Forall (fun t => fst t = None) (timers s)) as [Ht Hf].
  { induction Hr as [fsys m t s H|l s s' Hr [Ht Hf] H].
    - unfold constructor in H. destruct (_ <? _)%Z; [done|]. injection H as <-.
      split; [done|constructor].
    - destruct l as [r rnd| |i rnd|i fault]; simpl in H.
      + injection H as <-. eapply timers_ext_undefined; [done..|apply call_timers_ext].
      + destruct (microtasks s) as [|m rest]; [done|]. injection H as <-.
        destruct m as [path|p st]; simpl; [done|].
        by destruct (settle_shape p st (set_microtasks rest s)) as (P & ms & ->).
      + destruct (microtasks s); [|done].
        destruct (timers s !! i) as [[delay cb]|]; [|done]. injection H as <-.
        eapply timers_ext_undefined; [| |apply run_timer_timers_ext]; simpl; [done|].
        by apply Forall_delete_idx.
      + destruct (microtasks s); [|done].
        destruct (inflight s !! i) as [[fn order]|]; [|done]. injection H as <-.
        eapply timers_ext_undefined; [| |apply complete_timers_ext]; done. }
  split; [done|]. eapply Forall_impl; [exact Hf|]. intros [d cb] Hd. simpl in *.
  by subst d.
Qed.

(** ** Admission and retry *)

(** C3 (code at the failing inputs).  (a) With a ceiling of 0 a write is
    at capacity; its promise is fulfilled at once, and when its timer
    fires it logs 'retrying', calls [read] (l.33) and throws on the
    unbound [resolve]: the write itself is never submitted again.  (b)
    With a ceiling of 1, two writes to different paths are both admitted
    and in flight together: the test of l.30 counts 'write' listeners, of
    which there are none, not the writes in flight. *)
Theorem C3_admission_counts_listeners_and_retries_a_read :
  ((fun s => (callbacks s, promises s, in_flight s, queued s))
     <$> session ∅ (Some 0%Z) None [Call (Write "f" "x") "id1"])
    = Some ([RetryWrite "f"], [Fulfilled VUndefined], [], []) /\
  ((fun s => (callbacks s, console s, uncaught s, in_flight s, queued s, disk s))
     <$> session ∅ (Some 0%Z) None [Call (Write "f" "x") "id1"; FireTimer 0 "id2"])
    = Some ([RetryRead "f" 1], ["retrying"], [ReferenceError "resolve"], [], [], []) /\
  ((fun s => (in_flight s, listenerCount "write" s, maxListeners s))
     <$> session ∅ (Some 1%Z) None [Call (Write "a" "x") "id1"; Call (Write "b" "y") "id2"])
    = Some ([(writeFilePrivate, "a", "x"); (writeFilePrivate, "b", "y")], 0, 1%Z).
Proof. repeat split; vm_compute; reflexivity. Qed.

(** C9 (code at the failing input).  [new FileHandler()] sets the
    listener ceiling to 1000 but leaves [this.timeout] undefined, also
    when a timeout is given; the retry of a write blocked on a locked path
    and the retry of a read at capacity are scheduled with that undefined
    delay, for which Node waits 1 ms, not 10. *)
Theorem C9_timeout_is_never_stored :
  ((fun s => (maxListeners s, timeout s)) <$> session ∅ None None []) = Some (1000%Z, None) /\
  (timeout <$> session ∅ (Some 100%Z) (Some 100%Z) []) = Some None /\
  ((fun s => (delays s, callbacks s))
     <$> session ∅ None None [Call (Write "f" "a") "id1"; Call (Write "f" "b") "id2"])
    = Some ([None], [RetryExecute (Order.mk "f" "write" "b" "id2") "id2"]) /\
  ((fun s => (delays s, callbacks s))
     <$> session ∅ (Some 1%Z) None [Call (Read "f") "id1"; Call (Read "g") "id2"])
    = Some ([None], [RetryRead "g" 1]) /\
  timer_ms None = 1%Z /\
  timer_ms (Some 10%Z) = 10%Z.
Proof. repeat split; vm_compute; reflexivity. Qed.

(** ** Results and errors *)

(** C4 (code at the failing input).  [write("f","hello")], its
    completion, then [read("f")] and its completion: the read's promise is
    fulfilled with "hello".  But [create("f")] followed by [read("f")]:
    the promise of [create] is rejected with ReferenceError (l.76), no
    file is written, and the read fails with ENOENT, which nobody
    catches while the read's promise stays pending. *)
Theorem C4_create_then_read_does_not_round_trip :
  ((fun s => (promises s, disk s))
     <$> session ∅ None None
           [Call (Write "f" "hello") "id1"; RunMicrotask; Complete 0 None;
            Call (Read "f") "id2"; RunMicrotask; Complete 0 None])
    = Some ([Fulfilled VUndefined; Fulfilled (VString "hello")], [("f", "hello")]) /\
  ((fun s => (promises s, in_flight s, queued s, disk s))
     <$> session ∅ None None [Call (Create "f") ""])
    = Some ([Rejected (ReferenceError "content")], [], [], []) /\
  ((fun s => (promises s, disk s, uncaught s))
     <$> session ∅ None None
           [Call (Create "f") ""; Call (Read "f") "id1"; RunMicrotask; Complete 0 None])
    = Some ([Rejected (ReferenceError "content"); Pending], [], [HostError "ENOENT"]).
Proof. repeat split; vm_compute; reflexivity. Qed.

(** C5 (code at the failing input).  With the default configuration
    [create("g")] and [delete("f")] reject with ReferenceError: no order
    is built, nothing is queued or dispatched, and the file "f" stays. *)
Theorem C5_create_and_delete_throw_ReferenceError :
  ((fun s => (promises s, in_flight s, queued s, callbacks s, disk s))
     <$> session {["f" := "x"]} None None [Call (Create "g") ""; Call (Delete "f") ""])
    = Some ([Rejected (ReferenceError "content"); Rejected (ReferenceError "content")],
            [], [], [], [("f", "x")]).
Proof. vm_compute; reflexivity. Qed.

(** C6 (code at the failing input).  After [read("f")] has completed and
    its promise is fulfilled, its listener is still registered on 'read'
    and no fs call is in flight; a second read adds a second listener.  A
    read that fails (ENOENT) leaves its promise pending: its caller is not
    notified of the error. *)
Lemma C6_listener_stays_and_error_is_not_notified :
  ((fun s => (promises s, listeners "read" s, in_flight s))
     <$> session {["f" := "x"]} None None [Call (Read "f") "id1"; RunMicrotask; Complete 0 None])
    = Some ([Fulfilled (VString "x")], [ReadListener "id1" 0], []) /\
  ((fun s => (promises s, listeners "read" s, in_flight s))
     <$> session {["f" := "x"]} None None
           [Call (Read "f") "id1"; RunMicrotask; Complete 0 None;
            Call (Read "f") "id2"; RunMicrotask; Complete 0 None])
    = Some ([Fulfilled (VString "x"); Fulfilled (VString "x")],
            [ReadListener "id1" 0; ReadListener "id2" 1], []) /\
  ((fun s => (promises s, listeners "read" s, in_flight s, uncaught s))
     <$> session ∅ None None [Call (Read "f") "id1"; RunMicrotask; Complete 0 None])
    = Some ([Pending], [ReadListener "id1" 0], [], [HostError "ENOENT"]).
Proof. repeat split; vm_compute; reflexivity. Qed.

(** C2 (code at the failing input).  [read("f")] on a file system
    without "f": the fs call fails with ENOENT, no listener is registered
    for 'error', the error is thrown out of the callback, and the promise
    the caller holds is still pending; it is not rejected with the I/O
    error. *)
Lemma C2_failed_read_leaves_promise_pending :
  exists s,
    session ∅ None None [Call (Read "f") "id1"; RunMicrotask; Complete 0 None] = Some s /\
    promises s !! 0 = Some Pending /\
    promises s !! 0 <> Some (Rejected (HostError "ENOENT")) /\
    listeners "error" s = [] /\
    uncaught s = [HostError "ENOENT"].
Proof.
  eexists. split; [vm_compute; reflexivity|]. simpl. split_and!; try reflexivity. discriminate.
Qed.

(** A failed fs call in a state of the scheduler: the callback throws
    the error and does nothing else. *)
Lemma failed_completion s i fn order fault err s' :
  reachable s ->
  inflight s !! i = Some (fn, order) ->
  fst (fs_perform fn order fault (files s)) = inr err ->
  step (Complete i fault) s = Some s' ->
  s' = throw err (set_files (snd (fs_perform fn order fault (files s)))
                   (set_inflight (delete i (inflight s)) s)).
Proof.
  intros Hr Hi Herr. simpl.
  destruct (microtasks s) eqn:Hm; [|done]. rewrite Hi. intros [= <-].
  assert (listeners "error" s = []) as He.
  { unfold listeners. by rewrite (reachable_only_read s Hr "error"). }
  unfold complete.
  destruct (fs_perform fn order fault _) as [result fsys] eqn:E. simpl in *. subst result.
  unfold private_callback, emit, listeners in *. simpl. by rewrite He.
Qed.

(** ** Dispatch attempts and the registry *)

Lemma remove_first_length id stack order :
  find (WorkingStack.has_id id) stack = Some order ->
  S (length (WorkingStack.remove_first id stack)) = length stack.
Proof.
  induction stack as [|o stack IH]; simpl; [done|].
  destruct (WorkingStack.has_id id o); [done|].
  intros H. simpl. by rewrite IH.
Qed.

(** C8 (counterexample).  A write to "f" is in flight and holds the
    lock; the dispatch attempt of a second write to "f" finds its order in
    the registry, and leaves the registry without it. *)
Lemma C8_blocked_attempt_empties_registry :
  let order := Order.mk "f" "write" "b" "id2" in
  exists s1,
    session ∅ None None [Call (Write "f" "a") "id1"] = Some s1 /\
    let s := set_orderStack (WorkingStack.push order (orderStack s1)) s1 in
    locked s = ["f"] /\
    orderStack s = [order] /\
    orderStack (executeOrder "id2" s) = [] /\
    orderStack (executeOrder "id2" s) <> orderStack s /\
    callbacks (executeOrder "id2" s) = [RetryExecute order "id2"].
Proof.
  eexists. split; [vm_compute; reflexivity|]. simpl. split_and!; try reflexivity. discriminate.
Qed.

(** C8 (amended).  A dispatch attempt first tests, without removing,
    whether the registry has an order with the id and does nothing when it
    has none; otherwise it takes the order out of the registry.  When the
    order's path is locked nothing else changes but one retry timer, which
    holds the order; when that timer fires, it pushes the order back at
    the end of the registry and repeats the attempt. *)
Theorem C8_dispatch_attempt_takes_order_out id s :
  (find (WorkingStack.has_id id) (orderStack s) = None -> executeOrder id s = s) /\
  (forall order,
     find (WorkingStack.has_id id) (orderStack s) = Some order ->
     orderStack (executeOrder id s) = WorkingStack.remove_first id (orderStack s) /\
     S (length (orderStack (executeOrder id s))) = length (orderStack s) /\
     (Order.path order ∈ lock s ->
        executeOrder id s
        = setTimeout (RetryExecute order id) (timeout s)
            (set_orderStack (WorkingStack.remove_first id (orderStack s)) s)) /\
     (forall rnd s1,
        run_timer (RetryExecute order id) rnd s1
        = executeOrder id (set_orderStack (orderStack s1 ++ [order]) s1))).
Proof.
  split.
  - intros H. unfold executeOrder. by rewrite H.
  - intros order H.
    assert (orderStack (executeOrder id s) = WorkingStack.remove_first id (orderStack s)) as Hs.
    { unfold executeOrder, WorkingStack.getOrderById. rewrite H. simpl.
      destruct (decide _); [done|].
      destruct (private_of_type _);
        [unfold dispatch, private_call; by destruct (has_nul _)|].
      match goal with |- context [emit ?ev ?d ?s0] =>
        by destruct (emit_shape ev d s0) as (P & ms & U & ->)
      end. }
    split_and!.
    + exact Hs.
    + rewrite Hs. by eapply remove_first_length.
    + intros Hl. unfold executeOrder, WorkingStack.getOrderById. rewrite H. simpl.
      by rewrite decide_True.
    + reflexivity.
Qed.

Lemma C8_dispatch_attempt_takes_order_out_witness :
  let order := Order.mk "f" "write" "b" "id2" in
  let s := mkState {["f"]} 1000%Z ∅ [order] None [] [] [] [] [] ∅ [] [] in
  executeOrder "id9" s = s /\
  orderStack (executeOrder "id2" s) = [] /\
  executeOrder "id2" s = mkState {["f"]} 1000%Z ∅ [] None [] [] [] [(None, RetryExecute order "id2")] [] ∅ [] [].
Proof.
  intros order s. split_and!.
  - apply (C8_dispatch_attempt_takes_order_out "id9" s). reflexivity.
  - apply (proj2 (C8_dispatch_attempt_takes_order_out "id2" s) order). reflexivity.
  - apply (proj2 (C8_dispatch_attempt_takes_order_out "id2" s) order); [reflexivity|].
    vm_compute. reflexivity.
Defined.

(** ** Promise references stay within the promise table *)

Lemma elem_of_reactions_of m src st rs :
  m ∈ reactions_of src st rs -> exists tgt, m = Settle tgt st /\ (src, tgt) ∈ rs.
Proof.
  unfold reactions_of. rewrite list_elem_of_fmap.
  intros ([a b] & -> & [Heq Hin]%list_elem_of_filter). simpl in *. subst a. eauto.
Qed.

Lemma settle_length p st s : length (promises (settle p st s)) = length (promises s).
Proof.
  unfold settle. destruct (promises s !! p) as [[]|]; simpl; try done.
  apply length_insert.
Qed.

Lemma settle_refs_ok p st s : refs_ok s -> refs_ok (settle p st s).
Proof.
  intros (Hl & Hr & Hm & Ht). unfold refs_ok. rewrite settle_length.
  unfold settle. destruct (promises s !! p) as [[]|]; try by split_and!.
  split_and!; simpl; try done.
  intros q st' [H|H]%elem_of_app; [by eapply Hm|].
  apply elem_of_reactions_of in H as (tgt & [= -> ->] & H). by eapply Hr.
Qed.

Lemma throw_refs_ok e s : refs_ok s -> refs_ok (throw e s).
Proof. done. Qed.

Lemma call_listener_refs_ok data s l : refs_ok s -> refs_ok (call_listener data s l).
Proof.
  intros H. destruct l as [oid r]. unfold call_listener.
  destruct (payload_order data); [|done].
  destruct (String.eqb _ _); [by apply settle_refs_ok|done].
Qed.

Lemma foldl_call_listener_refs_ok data ls s :
  refs_ok s -> refs_ok (foldl (call_listener data) s ls).
Proof.
  revert s. induction ls as [|l ls IH]; intros s H; simpl; [done|].
  by apply IH, call_listener_refs_ok.
Qed.

Lemma emit_refs_ok ev data s : refs_ok s -> refs_ok (emit ev data s).
Proof.
  intros H. unfold emit. destruct (listeners ev s) as [|l ls].
  - by destruct (String.eqb ev "error").
  - by apply foldl_call_listener_refs_ok.
Qed.

Lemma queue_unlock_refs_ok path s :
  refs_ok s -> refs_ok (set_microtasks (microtasks s ++ [Unlock path]) s).
Proof.
  intros (Hl & Hr & Hm & Ht). split_and!; simpl; try done.
  intros p st [H|H]%elem_of_app; [by eapply Hm|].
  by apply list_elem_of_singleton in H.
Qed.

Lemma setTimeout_refs_ok cb delay s :
  (forall path p, cb = RetryRead path p -> p < length (promises s)) ->
  refs_ok s -> refs_ok (setTimeout cb delay s).
Proof.
  intros Hcb (Hl & Hr & Hm & Ht). split_and!; simpl; try done.
  intros d path p [H|H]%elem_of_app; [by eapply Ht|].
  apply list_elem_of_singleton in H as [= -> <-]. by eapply Hcb.
Qed.

Lemma executeOrder_refs_ok id s : refs_ok s -> refs_ok (executeOrder id s).
Proof.
  intros H. unfold executeOrder, WorkingStack.getOrderById.
  destruct (find _ _) as [order|]; [|done].
  simpl. destruct (decide _).
  - by apply setTimeout_refs_ok.
  - destruct (private_of_type _).
    + unfold dispatch, private_call. destruct (has_nul _); [exact H|].
      by apply (queue_unlock_refs_ok (Order.path order)) in H.
    + by apply emit_refs_ok.
Qed.

Lemma orderExecution_refs_ok order s : refs_ok s -> refs_ok (orderExecution order s).
Proof. intros H. by apply executeOrder_refs_ok. Qed.

Lemma new_promise_refs_ok st s : refs_ok s -> refs_ok (snd (new_promise st s)).
Proof.
  intros (Hl & Hr & Hm & Ht). unfold refs_ok. simpl. rewrite length_app. simpl.
  split_and!; intros.
  - apply Hl in H. lia.
  - apply Hr in H. lia.
  - apply Hm in H. lia.
  - apply Ht in H. lia.
Qed.

Lemma on_refs_ok ev l s :
  listener_target l < length (promises s) -> refs_ok s -> refs_ok (on ev l s).
Proof.
  intros Hl (Hls & Hr & Hm & Ht). split_and!; simpl; try done.
  intros ev' l'. unfold listeners. simpl. rewrite lookup_insert.
  destruct (decide (ev = ev')) as [->|]; simpl; [|apply Hls].
  intros [H|H]%elem_of_app; [by eapply Hls|].
  by apply list_elem_of_singleton in H as ->.
Qed.

Lemma executeOrder_promises_length id s :
  length (promises (executeOrder id s)) = length (promises s).
Proof.
  unfold executeOrder, WorkingStack.getOrderById.
  destruct (find _ _) as [order|]; [|done].
  simpl. destruct (decide _); [done|].
  destruct (private_of_type _);
    [unfold dispatch, private_call; by destruct (has_nul _)|].
  unfold emit. match goal with |- context [listeners ?ev ?s0] =>
    destruct (listeners ev s0) as [|l ls] end; [done|].
  match goal with |- context [foldl ?f ?s0 ?ls0] =>
    change (length (promises s)) with (length (promises s0));
    generalize s0; induction ls0 as [|l' ls' IH]; intros s1; [done|] end.
  simpl. rewrite IH. destruct l' as [oid r]. unfold call_listener.
  destruct (payload_order _); [|done].
  destruct (String.eqb _ _); [apply settle_length|done].
Qed.

Lemma read_refs_ok rnd path s : refs_ok s -> refs_ok (snd (read rnd path s)).
Proof.
  intros H. apply (new_promise_refs_ok Pending) in H.
  unfold read. destruct (new_promise Pending s) as [p s0] eqn:E.
  assert (p < length (promises s0)) as Hp.
  { injection E as <- <-. simpl. rewrite length_app. simpl. lia. }
  simpl in H. destruct (at_capacity _ _); simpl.
  - apply setTimeout_refs_ok; [|done]. by intros ?? [= _ <-].
  - apply on_refs_ok; [|by apply orderExecution_refs_ok].
    simpl. unfold orderExecution. by rewrite executeOrder_promises_length.
Qed.

Lemma write_refs_ok rnd path content s : refs_ok s -> refs_ok (snd (write rnd path content s)).
Proof.
  intros H. unfold write. destruct (at_capacity _ _).
  - apply new_promise_refs_ok. by apply setTimeout_refs_ok.
  - apply (new_promise_refs_ok _ (orderExecution (Order.mk path "write" content rnd) s)).
    by apply orderExecution_refs_ok.
Qed.

Lemma append_refs_ok rnd path content s :
  refs_ok s -> refs_ok (snd (append rnd path content s)).
Proof.
  intros H. unfold append. destruct (at_capacity _ _).
  - apply new_promise_refs_ok. by apply setTimeout_refs_ok.
  - apply (new_promise_refs_ok _ (orderExecution (Order.mk path "append" content rnd) s)).
    by apply orderExecution_refs_ok.
Qed.

Lemma create_refs_ok path s : refs_ok s -> refs_ok (snd (create path s)).
Proof.
  intros H. unfold create. destruct (at_capacity _ _).
  - apply new_promise_refs_ok. by apply setTimeout_refs_ok.
  - by apply new_promise_refs_ok.
Qed.

Lemma delete_refs_ok path s : refs_ok s -> refs_ok (snd (delete_ path s)).
Proof.
  intros H. unfold delete_. destruct (at_capacity _ _).
  - apply new_promise_refs_ok. by apply setTimeout_refs_ok.
  - by apply new_promise_refs_ok.
Qed.

Lemma call_refs_ok r rnd s : refs_ok s -> refs_ok (snd (call r rnd s)).
Proof.
  destruct r; simpl;
    auto using read_refs_ok, write_refs_ok, append_refs_ok, create_refs_ok, delete_refs_ok.
Qed.

Lemma then_forward_refs_ok src tgt s :
  tgt < length (promises s) -> refs_ok s -> refs_ok (then_forward src tgt s).
Proof.
  intros Hlt (Hl & Hr & Hm & Ht). unfold then_forward.
  destruct (promises s !! src) as [[]|]; split_and!; simpl; try done.
  - intros a b [H|H]%elem_of_app; [by eapply Hr|].
    by apply list_elem_of_singleton in H as [= -> ->].
  - intros q st [H|H]%elem_of_app; [by eapply Hm|].
    by apply list_elem_of_singleton in H as [= -> ->].
  - intros q st [H|H]%elem_of_app; [by eapply Hm|].
    by apply list_elem_of_singleton in H as [= -> ->].
Qed.

Lemma read_promises_length rnd path s :
  length (promises (snd (read rnd path s))) = S (length (promises s)).
Proof.
  unfold read, new_promise. destruct (at_capacity _ _); simpl.
  - rewrite length_app. simpl. lia.
  - unfold orderExecution. rewrite executeOrder_promises_length. simpl.
    rewrite length_app. simpl. lia.
Qed.

Lemma run_timer_refs_ok cb rnd s :
  (forall path p, cb = RetryRead path p -> p < length (promises s)) ->
  refs_ok s -> refs_ok (run_timer cb rnd s).
Proof.
  intros Hcb H. destruct cb; simpl.
  - destruct (read rnd path s) as [p' s'] eqn:E.
    assert (s' = snd (read rnd path s)) as -> by (by rewrite E).
    apply then_forward_refs_ok; [|by apply read_refs_ok].
    rewrite read_promises_length. specialize (Hcb path promise eq_refl). lia.
  - by apply (read_refs_ok rnd path (set_console (console s ++ ["retrying"]) s)).
  - by apply (read_refs_ok rnd path s).
  - by apply (read_refs_ok rnd path s).
  - by apply (read_refs_ok rnd path s).
  - by apply executeOrder_refs_ok.
Qed.

Lemma complete_refs_ok fn order fault s : refs_ok s -> refs_ok (complete fn order fault s).
Proof.
  intros H. unfold complete, private_callback.
  destruct (fs_perform _ _ _ _) as [[content|e] fsys].
  - destruct (success_event _ _ _) as [ev data]. by apply emit_refs_ok.
  - by apply emit_refs_ok.
Qed.

Lemma step_refs_ok l s s' : refs_ok s -> step l s = Some s' -> refs_ok s'.
Proof.
  intros H. destruct l as [r rnd| |i rnd|i fault]; simpl.
  - intros [= <-]. by apply call_refs_ok.
  - destruct (microtasks s) as [|m rest] eqn:E; [done|]. intros [= <-].
    destruct H as (Hl & Hr & Hm & Ht).
    assert (refs_ok (set_microtasks rest s)) as H'.
    { split_and!; simpl; try done. intros p st Hin. eapply Hm. rewrite E.
      apply elem_of_cons. eauto. }
    destruct m as [path|p st]; simpl; [done|by apply settle_refs_ok].
  - destruct (microtasks s); [|done].
    destruct (timers s !! i) as [[delay cb]|] eqn:E; [|done]. intros [= <-].
    destruct H as (Hl & Hr & Hm & Ht).
    apply run_timer_refs_ok.
    + intros path p ->. simpl. eapply Ht. by eapply list_elem_of_lookup_2.
    + split_and!; simpl; try done.
      intros d path p Hin. eapply Ht. by eapply list_elem_of_delete_inv.
  - destruct (microtasks s); [|done].
    destruct (inflight s !! i) as [[fn order]|] eqn:E; [|done]. intros [= <-].
    by apply complete_refs_ok.
Qed.

Lemma reachable_refs_ok s : reachable s -> refs_ok s.
Proof.
  induction 1 as [fsys m t s H|l s s' Hr IH H].
  - unfold constructor in H. destruct (_ <? _)%Z; [done|]. injection H as <-.
    split_and!; simpl; intros; by apply elem_of_nil in H.
  - by eapply step_refs_ok.
Qed.

(** ** At the listener ceiling no later promise is ever settled *)

Lemma keeps_refl n0 s : sealed n0 s -> keeps n0 s s.
Proof. by split. Qed.

(** An update of fields [sealed] does not read. *)
Ltac keeps_frame :=
  match goal with Hs : sealed _ _ |- _ => split; [exact Hs|auto] end.

Lemma keeps_trans n0 s1 s2 s3 : keeps n0 s1 s2 -> keeps n0 s2 s3 -> keeps n0 s1 s3.
Proof. intros [_ H12] [H3 H23]. split; auto. Qed.

Lemma keeps_then n0 s1 s2 s3 :
  keeps n0 s1 s2 -> (sealed n0 s2 -> keeps n0 s2 s3) -> keeps n0 s1 s3.
Proof. intros H12 H23. eapply keeps_trans; [done|]. apply H23, H12. Qed.

Lemma settle_keeps n0 p st s : p < n0 -> sealed n0 s -> keeps n0 s (settle p st s).
Proof.
  intros Hp Hs. unfold settle.
  destruct (promises s !! p) as [[]|] eqn:E; try by apply keeps_refl.
  destruct Hs as (Hc & Hn & Hl & Hm & Hr).
  split; [split_and!|]; simpl; try done.
  - by rewrite length_insert.
  - intros q st' [H|H]%elem_of_app; [by eapply Hm|].
    apply elem_of_reactions_of in H as (tgt & Heq & H). injection Heq as -> ->.
    destruct (decide (tgt < n0)) as [|Hge]; [done|].
    destruct (Hr _ _ H) as [? _]; lia.
  - intros src tgt H Htgt. destruct (Hr _ _ H Htgt) as [Hsrc Hpend].
    split; [done|]. rewrite list_lookup_insert_ne by lia. done.
  - intros q Hq Hpend. rewrite list_lookup_insert_ne by lia. done.
Qed.

Lemma call_listener_keeps n0 data s l :
  listener_target l < n0 -> sealed n0 s -> keeps n0 s (call_listener data s l).
Proof.
  intros Hl Hs. destruct l as [oid r]. unfold call_listener.
  destruct (payload_order data); [|keeps_frame].
  destruct (String.eqb _ _); [by apply settle_keeps|by apply keeps_refl].
Qed.

Lemma foldl_call_listener_keeps n0 data ls s :
  (forall l, l ∈ ls -> listener_target l < n0) ->
  sealed n0 s -> keeps n0 s (foldl (call_listener data) s ls).
Proof.
  revert s. induction ls as [|l ls IH]; intros s Hls Hs; simpl; [by apply keeps_refl|].
  eapply keeps_then.
  - apply call_listener_keeps; [|done]. apply Hls. by left.
  - apply IH. intros l' Hl'. apply Hls. by right.
Qed.

Lemma emit_keeps n0 ev data s : sealed n0 s -> keeps n0 s (emit ev data s).
Proof.
  intros Hs. unfold emit. destruct (listeners ev s) as [|l ls] eqn:E.
  - destruct (String.eqb ev "error"); keeps_frame.
  - apply foldl_call_listener_keeps; [|done].
    intros l' Hl'. destruct Hs as (_ & _ & Hl & _). apply (Hl ev). by rewrite E.
Qed.

Lemma queue_unlock_keeps n0 path s :
  sealed n0 s -> keeps n0 s (set_microtasks (microtasks s ++ [Unlock path]) s).
Proof.
  intros (Hc & Hn & Hl & Hm & Hr). split; [split_and!|]; simpl; try done.
  intros p st [H|H]%elem_of_app; [by eapply Hm|].
  by apply list_elem_of_singleton in H.
Qed.

Lemma executeOrder_keeps n0 id s : sealed n0 s -> keeps n0 s (executeOrder id s).
Proof.
  intros Hs. unfold executeOrder, WorkingStack.getOrderById.
  destruct (find _ _) as [order|]; [|by apply keeps_refl].
  simpl. destruct (decide _); [keeps_frame|].
  destruct (private_of_type _).
  - unfold dispatch, private_call. destruct (has_nul _); [keeps_frame|].
    by apply (queue_unlock_keeps n0 (Order.path order)) in Hs.
  - match goal with |- keeps _ _ (emit _ _ ?s0) =>
      apply (keeps_trans _ _ s0); [keeps_frame|apply emit_keeps; exact Hs]
    end.
Qed.

Lemma new_promise_keeps n0 st s : sealed n0 s -> keeps n0 s (snd (new_promise st s)).
Proof.
  intros (Hc & Hn & Hl & Hm & Hr). split; [split_and!|]; simpl; try done.
  - rewrite length_app. lia.
  - intros src tgt H Htgt. destruct (Hr _ _ H Htgt) as [Hsrc Hpend].
    split; [done|]. by apply lookup_app_l_Some.
  - intros p _ Hp. by apply lookup_app_l_Some.
Qed.

(** A [read] at the ceiling: a fresh pending promise and a retry timer. *)
Lemma read_at_capacity rnd path s :
  at_capacity "read" s = true ->
  read rnd path s
  = (length (promises s),
     setTimeout (RetryRead path (length (promises s))) (timeout s)
       (set_promises (promises s ++ [Pending]) s)).
Proof.
  intros H. unfold read, new_promise.
  replace (at_capacity "read" (set_promises (promises s ++ [Pending]) s))
    with (at_capacity "read" s) by reflexivity.
  by rewrite H.
Qed.

Lemma read_keeps n0 rnd path s : sealed n0 s -> keeps n0 s (snd (read rnd path s)).
Proof.
  intros Hs. rewrite read_at_capacity by apply Hs. simpl.
  by apply (new_promise_keeps n0 Pending) in Hs.
Qed.

Lemma write_keeps n0 rnd path content s :
  sealed n0 s -> keeps n0 s (snd (write rnd path content s)).
Proof.
  intros Hs. unfold write. destruct (at_capacity "write" s).
  - by apply (new_promise_keeps n0 (Fulfilled VUndefined)) in Hs.
  - eapply keeps_then; [by apply (executeOrder_keeps n0 rnd
      (set_orderStack (WorkingStack.push (Order.mk path "write" content rnd) (orderStack s)) s))|].
    intros Hs'. by apply (new_promise_keeps n0 (Fulfilled VUndefined)) in Hs'.
Qed.

Lemma append_keeps n0 rnd path content s :
  sealed n0 s -> keeps n0 s (snd (append rnd path content s)).
Proof.
  intros Hs. unfold append. destruct (at_capacity "undefined" s).
  - by apply (new_promise_keeps n0 (Fulfilled VUndefined)) in Hs.
  - eapply keeps_then; [by apply (executeOrder_keeps n0 rnd
      (set_orderStack (WorkingStack.push (Order.mk path "append" content rnd) (orderStack s)) s))|].
    intros Hs'. by apply (new_promise_keeps n0 (Fulfilled VUndefined)) in Hs'.
Qed.

Lemma create_keeps n0 path s : sealed n0 s -> keeps n0 s (snd (create path s)).
Proof.
  intros Hs. unfold create. destruct (at_capacity "create" s).
  - by apply (new_promise_keeps n0 (Fulfilled VUndefined)) in Hs.
  - by apply new_promise_keeps.
Qed.

Lemma delete_keeps n0 path s : sealed n0 s -> keeps n0 s (snd (delete_ path s)).
Proof.
  intros Hs. unfold delete_. destruct (at_capacity "delete" s).
  - by apply (new_promise_keeps n0 (Fulfilled VUndefined)) in Hs.
  - by apply new_promise_keeps.
Qed.

Lemma call_keeps n0 r rnd s : sealed n0 s -> keeps n0 s (snd (call r rnd s)).
Proof.
  destruct r; simpl;
    auto using read_keeps, write_keeps, append_keeps, create_keeps, delete_keeps.
Qed.

Lemma then_forward_keeps n0 src tgt s :
  n0 <= src -> promises s !! src = Some Pending ->
  sealed n0 s -> keeps n0 s (then_forward src tgt s).
Proof.
  intros Hsrc Hpend (Hc & Hn & Hl & Hm & Hr). unfold then_forward. rewrite Hpend.
  split; [split_and!|]; simpl; try done.
  intros a b [H|H]%elem_of_app Hb; [by eapply Hr|].
  by apply list_elem_of_singleton in H as [= -> ->].
Qed.

Lemma run_timer_keeps n0 cb rnd s : sealed n0 s -> keeps n0 s (run_timer cb rnd s).
Proof.
  intros Hs. destruct cb; simpl.
  - rewrite read_at_capacity by apply Hs.
    destruct (new_promise_keeps n0 Pending s Hs) as [Hs1 Hk1].
    match goal with |- keeps _ _ (then_forward _ _ ?s1) =>
      apply (keeps_trans _ _ s1); [split; [exact Hs1|exact Hk1]|]
    end.
    apply then_forward_keeps.
    + apply Hs.
    + simpl. apply list_lookup_middle. done.
    + exact Hs1.
  - by apply (read_keeps n0 rnd path (set_console (console s ++ ["retrying"]) s)) in Hs.
  - by apply (read_keeps n0 rnd path) in Hs.
  - by apply (read_keeps n0 rnd path) in Hs.
  - by apply (read_keeps n0 rnd path) in Hs.
  - by apply (executeOrder_keeps n0 id
                (set_orderStack (WorkingStack.push order (orderStack s)) s)) in Hs.
Qed.

Lemma complete_keeps n0 fn order fault s :
  sealed n0 s -> keeps n0 s (complete fn order fault s).
Proof.
  intros Hs. unfold complete, private_callback.
  destruct (fs_perform _ _ _ _) as [[content|e] fsys].
  - destruct (success_event _ _ _) as [ev data].
    by apply (emit_keeps n0 ev data (set_files fsys s)) in Hs.
  - by apply (emit_keeps n0 "error" (ErrData e) (set_files fsys s)) in Hs.
Qed.

Lemma step_keeps n0 l s s' : sealed n0 s -> step l s = Some s' -> keeps n0 s s'.
Proof.
  intros Hs. destruct l as [r rnd| |i rnd|i fault]; simpl.
  - intros [= <-]. by apply call_keeps.
  - destruct (microtasks s) as [|m rest] eqn:E; [done|]. intros [= <-].
    destruct Hs as (Hc & Hn & Hl & Hm & Hr).
    assert (sealed n0 (set_microtasks rest s)) as Hs'.
    { split_and!; simpl; try done. intros p st Hin. eapply Hm. rewrite E. by right. }
    destruct m as [path|p st]; simpl.
    + split; [exact Hs'|auto].
    + apply (settle_keeps n0 p st) in Hs'; [exact Hs'|].
      eapply Hm. rewrite E. by left.
  - destruct (microtasks s); [|done].
    destruct (timers s !! i) as [[delay cb]|] eqn:E; [|done]. intros [= <-].
    by apply (run_timer_keeps n0 cb rnd (set_timers (delete i (timers s)) s)) in Hs.
  - destruct (microtasks s); [|done].
    destruct (inflight s !! i) as [[fn order]|] eqn:E; [|done]. intros [= <-].
    by apply (complete_keeps n0 fn order fault (set_inflight (delete i (inflight s)) s)) in Hs.
Qed.

Lemma run_keeps n0 ls s s' : sealed n0 s -> run ls s = Some s' -> keeps n0 s s'.
Proof.
  revert s. induction ls as [|l ls IH]; intros s Hs; simpl.
  - intros [= <-]. by apply keeps_refl.
  - destruct (step l s) as [s1|] eqn:E; [|done]. intros H.
    eapply keeps_then; [by eapply step_keeps|]. intros Hs1. by apply IH.
Qed.

(** A state at the ceiling whose promise references are in the table is
    sealed from the end of its table on. *)
Lemma refs_ok_sealed s :
  refs_ok s -> at_capacity "read" s = true -> sealed (length (promises s)) s.
Proof.
  intros (Hl & Hr & Hm & Ht) Hc. split_and!; try done.
  intros src tgt H Htgt. apply Hr in H. lia.
Qed.

Lemma events_step_listeners s s' :
  events_step s s' -> exists more, listeners "read" s' = listeners "read" s ++ more.
Proof.
  intros (_ & _ & [He|(_ & id & He)]); unfold listeners at 1; rewrite He.
  - exists []. by rewrite app_nil_r.
  - rewrite lookup_insert_eq. simpl. eauto.
Qed.

Lemma run_listeners ls s s' :
  run ls s = Some s' -> exists more, listeners "read" s' = listeners "read" s ++ more.
Proof.
  revert s. induction ls as [|l ls IH]; intros s; simpl.
  - intros [= <-]. exists []. by rewrite app_nil_r.
  - destruct (step l s) as [s1|] eqn:E; [|done]. intros [more' H]%IH.
    apply step_events_step, events_step_listeners in E as [more E].
    exists (more ++ more'). by rewrite H, E, app_assoc.
Qed.

Lemma step_at_capacity l s s' :
  at_capacity "read" s = true -> step l s = Some s' ->
  events s' = events s /\ at_capacity "read" s' = true.
Proof.
  intros Hc (Hm & _ & [He|(Hc' & _)])%step_events_step; [|congruence].
  split; [done|]. unfold at_capacity, listenerCount, listeners, getMaxListeners in *.
  by rewrite He, Hm.
Qed.

Lemma run_at_capacity ls s s' :
  at_capacity "read" s = true -> run ls s = Some s' ->
  events s' = events s /\ at_capacity "read" s' = true.
Proof.
  revert s. induction ls as [|l ls IH]; intros s Hc; simpl.
  - by intros [= <-].
  - destruct (step l s) as [s1|] eqn:E; [|done]. intros H.
    destruct (step_at_capacity _ _ _ Hc E) as [He Hc1].
    destruct (IH _ Hc1 H) as [He' Hc']. split; [congruence|done].
Qed.

(** ** Listener leak *)

(** C10.  In every state of the scheduler: an admitted [read] adds one
    'read' listener; no step ever removes one, so the 'read' listeners of
    a later state extend those of an earlier one and their count does not
    decrease; and once the count equals the ceiling it stays there: a
    [read] then only makes a pending promise and a retry timer (no order,
    no listener), every later state is again at the ceiling, so every
    retry and every later [read] takes the same branch, and the promise
    is pending in every later state. *)
Theorem C10_read_listeners_are_never_removed s :
  reachable s ->
  (forall rnd path,
     at_capacity "read" s = false ->
     listeners "read" (snd (read rnd path s))
     = listeners "read" s ++ [ReadListener rnd (length (promises s))]) /\
  (forall ls s',
     run ls s = Some s' ->
     (exists more, listeners "read" s' = listeners "read" s ++ more) /\
     listenerCount "read" s <= listenerCount "read" s') /\
  (at_capacity "read" s = true ->
   forall rnd path,
     read rnd path s
     = (length (promises s),
        setTimeout (RetryRead path (length (promises s))) (timeout s)
          (set_promises (promises s ++ [Pending]) s)) /\
     forall ls s',
       run ls (snd (read rnd path s)) = Some s' ->
       at_capacity "read" s' = true /\
       listeners "read" s' = listeners "read" s /\
       promises s' !! length (promises s) = Some Pending).
Proof.
  intros Hr. split_and!.
  - intros rnd path Hc. unfold listeners at 1. rewrite read_events, Hc.
    by rewrite lookup_insert_eq.
  - intros ls s' [more H]%run_listeners. split; [eauto|].
    unfold listenerCount. rewrite H, length_app. lia.
  - intros Hc rnd path. split; [by apply read_at_capacity|].
    intros ls s' Hrun.
    pose proof (refs_ok_sealed s (reachable_refs_ok s Hr) Hc) as Hs.
    destruct (read_keeps _ rnd path s Hs) as [Hs1 _].
    destruct (run_keeps _ ls _ s' Hs1 Hrun) as [Hs' Hk].
    split_and!.
    + apply Hs'.
    + assert (events (snd (read rnd path s)) = events s) as He
        by (by rewrite read_events, Hc).
      destruct (run_at_capacity ls _ s' (proj1 Hs1) Hrun) as [He' _].
      unfold listeners. by rewrite He', He.
    + apply Hk; [done|]. rewrite read_at_capacity by done. simpl.
      by apply list_lookup_middle.
Qed.

Lemma C10_read_listeners_are_never_removed_witness :
  exists sA sB s1 s2,
    session ∅ (Some 1%Z) None [] = Some sA /\
    session ∅ (Some 1%Z) None [Call (Read "f") "id1"; RunMicrotask] = Some sB /\
    run [Call (Read "f") "id1"; RunMicrotask; Complete 0 None] sA = Some s1 /\
    run [FireTimer 0 "id3"; FireTimer 0 "id4"; Complete 0 None]
      (snd (read "id2" "g" sB)) = Some s2 /\
    at_capacity "read" sA = false /\
    at_capacity "read" sB = true /\
    listeners "read" (snd (read "id1" "f" sA))
      = listeners "read" sA ++ [ReadListener "id1" (length (promises sA))] /\
    listenerCount "read" sA <= listenerCount "read" s1 /\
    at_capacity "read" s2 = true /\
    listeners "read" s2 = listeners "read" sB /\
    promises s2 !! length (promises sB) = Some Pending.
Proof.
  eexists _, _, _, _.
  split; [vm_compute; reflexivity|].
  split; [vm_compute; reflexivity|].
  split; [vm_compute; reflexivity|].
  split; [vm_compute; reflexivity|].
  split; [vm_compute; reflexivity|].
  split; [vm_compute; reflexivity|].
  split.
  { refine (proj1 (C10_read_listeners_are_never_removed _ _) "id1" "f" _).
    - eapply (session_reachable ∅ (Some 1%Z) None []). vm_compute. reflexivity.
    - vm_compute. reflexivity. }
  split.
  { match goal with |- _ <= listenerCount "read" ?s1 =>
      refine (proj2 (proj1 (proj2 (C10_read_listeners_are_never_removed _ _))
                [Call (Read "f") "id1"; RunMicrotask; Complete 0 None] s1 _))
    end.
    - eapply (session_reachable ∅ (Some 1%Z) None []). vm_compute. reflexivity.
    - vm_compute. reflexivity. }
  match goal with |- at_capacity "read" ?s2 = true /\ _ =>
    refine (proj2 (proj2 (proj2 (C10_read_listeners_are_never_removed _ _)) _ "id2" "g")
              [FireTimer 0 "id3"; FireTimer 0 "id4"; Complete 0 None] s2 _)
  end.
  - eapply (session_reachable ∅ (Some 1%Z) None [Call (Read "f") "id1"; RunMicrotask]).
    vm_compute. reflexivity.
  - vm_compute. reflexivity.
  - vm_compute. reflexivity.
Defined.

(** ** Notification of a read's caller *)

Lemma stable_refl s : stable s s.
Proof. by intros p st H _. Qed.

Lemma stable_trans s1 s2 s3 : stable s1 s2 -> stable s2 s3 -> stable s1 s3.
Proof. intros H12 H23 p st H Hst. apply H23; [|done]. by apply H12. Qed.

(** An update that leaves the promise table alone. *)
Ltac stable_frame := let H := fresh in intros ? ? H _; exact H.

Lemma settle_other p q st s : p <> q -> promises (settle q st s) !! p = promises s !! p.
Proof.
  intros Hne. unfold settle. destruct (promises s !! q) as [[]|]; simpl; try done.
  by rewrite list_lookup_insert_ne.
Qed.

Lemma settle_pending p st s :
  promises s !! p = Some Pending -> promises (settle p st s) !! p = Some st.
Proof.
  intros H. unfold settle. rewrite H. simpl.
  apply list_lookup_insert_eq. by eapply lookup_lt_Some.
Qed.

Lemma settle_stable q st s : stable s (settle q st s).
Proof.
  intros p st0 H Hst. destruct (decide (p = q)) as [->|Hne].
  - unfold settle. rewrite H. by destruct st0.
  - by rewrite settle_other.
Qed.

Lemma call_listener_stable data s l : stable s (call_listener data s l).
Proof.
  destruct l as [oid r]. unfold call_listener.
  destruct (payload_order data); [|stable_frame].
  destruct (String.eqb _ _); [apply settle_stable|apply stable_refl].
Qed.

Lemma foldl_call_listener_stable data ls s : stable s (foldl (call_listener data) s ls).
Proof.
  revert s. induction ls as [|l ls IH]; intros s; simpl; [apply stable_refl|].
  eapply stable_trans; [apply call_listener_stable|apply IH].
Qed.

Lemma emit_stable ev data s : stable s (emit ev data s).
Proof.
  unfold emit. destruct (listeners ev s) as [|l ls].
  - destruct (String.eqb ev "error"); [stable_frame|apply stable_refl].
  - apply foldl_call_listener_stable.
Qed.

Lemma new_promise_stable st s : stable s (snd (new_promise st s)).
Proof. intros p st0 H _. simpl. by apply lookup_app_l_Some. Qed.

Lemma executeOrder_stable id s : stable s (executeOrder id s).
Proof.
  unfold executeOrder, WorkingStack.getOrderById.
  destruct (find _ _) as [order|]; [|apply stable_refl].
  simpl. destruct (decide _); [stable_frame|].
  destruct (private_of_type _);
    [unfold dispatch, private_call; destruct (has_nul _); stable_frame|].
  match goal with |- stable _ (emit _ _ ?s0) =>
    apply (stable_trans _ s0); [stable_frame|apply emit_stable]
  end.
Qed.

Lemma orderExecution_stable order s : stable s (orderExecution order s).
Proof.
  unfold orderExecution.
  eapply stable_trans; [|apply executeOrder_stable]. stable_frame.
Qed.

Lemma read_stable rnd path s : stable s (snd (read rnd path s)).
Proof.
  unfold read. destruct (new_promise Pending s) as [p s0] eqn:E.
  assert (stable s s0) as H0.
  { replace s0 with (snd (new_promise Pending s)) by (by rewrite E).
    apply new_promise_stable. }
  destruct (at_capacity _ _); simpl.
  - eapply stable_trans; [exact H0|stable_frame].
  - eapply stable_trans; [exact H0|].
    eapply stable_trans; [apply orderExecution_stable|stable_frame].
Qed.

Lemma call_stable r rnd s : stable s (snd (call r rnd s)).
Proof.
  destruct r; simpl; [apply read_stable|..].
  - unfold write. destruct (at_capacity _ _).
    + apply (stable_trans _ (setTimeout (RetryWrite path) (timeout s) s));
        [stable_frame|apply new_promise_stable].
    + simpl. eapply stable_trans; [apply orderExecution_stable|apply new_promise_stable].
  - unfold create. destruct (at_capacity _ _).
    + apply (stable_trans _ (setTimeout (RetryCreate path) (timeout s) s));
        [stable_frame|apply new_promise_stable].
    + apply new_promise_stable.
  - unfold delete_. destruct (at_capacity _ _).
    + apply (stable_trans _ (setTimeout (RetryDelete path) (timeout s) s));
        [stable_frame|apply new_promise_stable].
    + apply new_promise_stable.
  - unfold append. destruct (at_capacity _ _).
    + apply (stable_trans _ (setTimeout (RetryAppend path) (timeout s) s));
        [stable_frame|apply new_promise_stable].
    + simpl. eapply stable_trans; [apply orderExecution_stable|apply new_promise_stable].
Qed.

Lemma then_forward_stable src tgt s : stable s (then_forward src tgt s).
Proof. unfold then_forward. destruct (promises s !! src) as [[]|]; stable_frame. Qed.

Lemma run_timer_stable cb rnd s : stable s (run_timer cb rnd s).
Proof.
  destruct cb; simpl.
  - destruct (read rnd path s) as [p' s'] eqn:E.
    assert (s' = snd (read rnd path s)) as -> by (by rewrite E).
    eapply stable_trans; [apply read_stable|apply then_forward_stable].
  - apply (stable_trans _ (set_console (console s ++ ["retrying"]) s)); [stable_frame|].
    eapply stable_trans; [apply (read_stable rnd path)|stable_frame].
  - eapply stable_trans; [apply (read_stable rnd path)|stable_frame].
  - eapply stable_trans; [apply (read_stable rnd path)|stable_frame].
  - eapply stable_trans; [apply (read_stable rnd path)|stable_frame].
  - eapply stable_trans; [|apply executeOrder_stable]. stable_frame.
Qed.

Lemma complete_stable fn order fault s : stable s (complete fn order fault s).
Proof.
  unfold complete, private_callback.
  destruct (fs_perform _ _ _ _) as [[content|e] fsys].
  - destruct (success_event _ _ _) as [ev data].
    eapply stable_trans; [|apply emit_stable]. stable_frame.
  - eapply stable_trans; [|apply emit_stable]. stable_frame.
Qed.

(** A settled promise is never settled again. *)
Lemma step_stable l s s' : step l s = Some s' -> stable s s'.
Proof.
  destruct l as [r rnd| |i rnd|i fault]; simpl.
  - intros [= <-]. apply call_stable.
  - destruct (microtasks s) as [|m rest]; [done|]. intros [= <-].
    destruct m as [path|p st]; simpl; [stable_frame|].
    eapply stable_trans; [|apply settle_stable]. stable_frame.
  - destruct (microtasks s); [|done].
    destruct (timers s !! i) as [[delay cb]|]; [|done]. intros [= <-].
    eapply stable_trans; [|apply run_timer_stable]. stable_frame.
  - destruct (microtasks s); [|done].
    destruct (inflight s !! i) as [[fn order]|]; [|done]. intros [= <-].
    eapply stable_trans; [|apply complete_stable]. stable_frame.
Qed.

Lemma call_listener_read_keeps_result order content s l p :
  promises s !! p = Some Pending \/ promises s !! p = Some (Fulfilled (VString content)) ->
  promises (call_listener (ReadData order content) s l) !! p = Some Pending \/
  promises (call_listener (ReadData order content) s l) !! p
    = Some (Fulfilled (VString content)).
Proof.
  intros H. destruct l as [oid r]. unfold call_listener. simpl.
  destruct (String.eqb _ _); [|done].
  destruct (decide (p = r)) as [->|Hne]; [|by rewrite settle_other].
  right. destruct H as [H|H]; [by apply settle_pending|].
  by apply (settle_stable r (Fulfilled (VString content)) s).
Qed.

Lemma foldl_read_notifies order content ls s p :
  ReadListener (Order.id order) p ∈ ls ->
  promises s !! p = Some Pending \/ promises s !! p = Some (Fulfilled (VString content)) ->
  promises (foldl (call_listener (ReadData order content)) s ls) !! p
  = Some (Fulfilled (VString content)).
Proof.
  revert s. induction ls as [|l ls IH]; intros s Hin H; [by apply elem_of_nil in Hin|].
  simpl. apply elem_of_cons in Hin as [<-|Hin].
  - apply foldl_call_listener_stable; [|done].
    unfold call_listener. simpl. rewrite String.eqb_refl.
    destruct H as [H|H]; [by apply settle_pending|].
    by apply (settle_stable p (Fulfilled (VString content)) s).
  - apply IH; [done|]. by apply call_listener_read_keeps_result.
Qed.

Lemma foldl_read_untouched order content ls s p :
  (forall oid, ReadListener oid p ∈ ls -> oid <> Order.id order) ->
  promises (foldl (call_listener (ReadData order content)) s ls) !! p = promises s !! p.
Proof.
  revert s. induction ls as [|l ls IH]; intros s Hls; [done|]. simpl.
  rewrite IH by (intros oid Hin; apply Hls; by right).
  destruct l as [oid r]. unfold call_listener. simpl.
  destruct (String.eqb_spec (Order.id order) oid) as [Heq|]; [|done].
  apply settle_other. intros ->. apply (Hls oid); [by left|done].
Qed.

Lemma emit_read_notifies order content s p :
  ReadListener (Order.id order) p ∈ listeners "read" s ->
  promises s !! p = Some Pending ->
  promises (emit "read" (ReadData order content) s) !! p
  = Some (Fulfilled (VString content)).
Proof.
  intros Hin H. unfold emit. destruct (listeners "read" s) as [|l ls] eqn:E.
  - by apply elem_of_nil in Hin.
  - apply foldl_read_notifies; auto.
Qed.

Lemma emit_read_untouched order content s p :
  (forall oid, ReadListener oid p ∈ listeners "read" s -> oid <> Order.id order) ->
  promises (emit "read" (ReadData order content) s) !! p = promises s !! p.
Proof.
  intros Hls. unfold emit. destruct (listeners "read" s) as [|l ls] eqn:E; [done|].
  by apply foldl_read_untouched.
Qed.

Lemma executeOrder_promises id s : types_ok s -> promises (executeOrder id s) = promises s.
Proof.
  intros (Hs & _ & _). unfold executeOrder, WorkingStack.getOrderById.
  destruct (find _ _) as [order|] eqn:E; [|done].
  assert (order_ok order) as [fn Hfn]%order_ok_private by (eapply find_Forall; eauto).
  simpl. destruct (decide _); [done|]. rewrite Hfn.
  unfold dispatch, private_call. by destruct (has_nul _).
Qed.

(** l.46-63: an admitted [read] returns a fresh pending promise and
    subscribes it on the id of its order. *)
Lemma read_subscribes rnd path s :
  types_ok s -> at_capacity "read" s = false ->
  fst (read rnd path s) = length (promises s) /\
  ReadListener rnd (length (promises s)) ∈ listeners "read" (snd (read rnd path s)) /\
  promises (snd (read rnd path s)) !! length (promises s) = Some Pending.
Proof.
  intros Ht Hc. split_and!.
  - unfold read, new_promise. by destruct (at_capacity _ _).
  - unfold listeners. rewrite read_events, Hc, lookup_insert_eq. simpl.
    apply elem_of_app. right. by apply list_elem_of_singleton.
  - unfold read, new_promise.
    replace (at_capacity "read" (set_promises (promises s ++ [Pending]) s))
      with (at_capacity "read" s) by reflexivity.
    rewrite Hc. simpl. unfold orderExecution. rewrite executeOrder_promises.
    + simpl. by apply list_lookup_middle.
    + destruct Ht as (Hs & Htm & Hi). split_and!; simpl; [|done|done].
      apply Forall_app. split; [done|]. by repeat constructor.
Qed.

(** * Further properties of the code *)

(** ** WorkingStack *)

Lemma find_has_id_split id stack order :
  find (WorkingStack.has_id id) stack = Some order ->
  exists l1 l2,
    stack = l1 ++ order :: l2 /\
    WorkingStack.remove_first id stack = l1 ++ l2 /\
    Order.id order = id /\
    Forall (fun o => Order.id o <> id) l1.
Proof.
  induction stack as [|o stack IH]; simpl; [done|].
  unfold WorkingStack.has_id at 1 3.
  destruct (String.eqb_spec (Order.id o) id) as [Heq|Hne].
  - intros [= <-]. exists [], stack. by split_and!.
  - intros (l1 & l2 & -> & Hr & Hid & Hall)%IH.
    exists (o :: l1), l2. rewrite Hr. split_and!; try done. by constructor.
Qed.

Lemma find_has_id_none id stack :
  find (WorkingStack.has_id id) stack = None <-> Forall (fun o => Order.id o <> id) stack.
Proof.
  induction stack as [|o stack IH]; simpl; [by split; [constructor|]|].
  unfold WorkingStack.has_id at 1.
  destruct (String.eqb_spec (Order.id o) id) as [Heq|Hne].
  - split; [done|]. by intros [? _]%Forall_cons.
  - rewrite IH. split; [by constructor|by intros [_ ?]%Forall_cons].
Qed.

(** X1.  [getOrderById] takes out the oldest order with the id: the
    orders before it have other ids, and the orders around it stay, in
    their order.  When no order has the id it returns null and leaves the
    stack alone. *)
Theorem WorkingStack_getOrderById_takes_oldest id stack :
  match WorkingStack.getOrderById id stack with
  | (Some order, rest) =>
      exists l1 l2,
        stack = l1 ++ order :: l2 /\ rest = l1 ++ l2 /\
        Order.id order = id /\ Forall (fun o => Order.id o <> id) l1
  | (None, rest) => rest = stack /\ Forall (fun o => Order.id o <> id) stack
  end.
Proof.
  unfold WorkingStack.getOrderById.
  destruct (find _ _) as [order|] eqn:E.
  - by apply find_has_id_split.
  - split; [done|]. by apply find_has_id_none.
Qed.

(** X2.  When the ids in the stack are distinct, an order can be taken
    once: after [getOrderById] neither [peekOrderById] nor a second
    [getOrderById] finds the id. *)
Theorem WorkingStack_getOrderById_once id stack :
  NoDup (map Order.id stack) ->
  WorkingStack.peekOrderById id (snd (WorkingStack.getOrderById id stack)) = None /\
  fst (WorkingStack.getOrderById id (snd (WorkingStack.getOrderById id stack))) = None.
Proof.
  intros Hnd.
  assert (find (WorkingStack.has_id id) (snd (WorkingStack.getOrderById id stack)) = None) as H.
  { unfold WorkingStack.getOrderById.
    destruct (find _ stack) as [order|] eqn:E; simpl; [|done].
    apply find_has_id_split in E as (l1 & l2 & -> & -> & Hid & Hall).
    apply find_has_id_none. apply Forall_app. split; [done|].
    rewrite fmap_app, fmap_cons in Hnd. apply NoDup_app in Hnd as (_ & _ & Hnd).
    apply NoDup_cons in Hnd as [Hnotin _].
    apply Forall_forall. intros o Ho Heq. apply Hnotin.
    rewrite Hid, <- Heq. apply list_elem_of_fmap. eauto. }
  set (rest := snd (WorkingStack.getOrderById id stack)) in *.
  split; [exact H|]. unfold WorkingStack.getOrderById. by rewrite H.
Qed.

Lemma WorkingStack_getOrderById_once_witness :
  let a := Order.mk "f" "read" "" "id1" in
  let b := Order.mk "g" "write" "x" "id2" in
  WorkingStack.peekOrderById "id1" (snd (WorkingStack.getOrderById "id1" [a; b])) = None /\
  fst (WorkingStack.getOrderById "id1" (snd (WorkingStack.getOrderById "id1" [a; b]))) = None.
Proof.
  intros a b. apply (WorkingStack_getOrderById_once "id1" [a; b]).
  apply (bool_decide_unpack _). vm_compute. exact I.
Defined.

Lemma find_app_none {A} (f : A -> bool) l1 l2 :
  find f l1 = None -> find f (l1 ++ l2) = find f l2.
Proof. induction l1 as [|x l1 IH]; simpl; [done|]. by destruct (f x). Qed.

Lemma find_app_some {A} (f : A -> bool) l1 l2 x :
  find f l1 = Some x -> find f (l1 ++ l2) = Some x.
Proof. induction l1 as [|y l1 IH]; simpl; [done|]. by destruct (f y). Qed.

Lemma remove_first_app_none id l1 l2 :
  find (WorkingStack.has_id id) l1 = None ->
  WorkingStack.remove_first id (l1 ++ l2) = l1 ++ WorkingStack.remove_first id l2.
Proof.
  induction l1 as [|o l1 IH]; simpl; [done|].
  destruct (WorkingStack.has_id id o); [done|]. intros H. by rewrite IH.
Qed.

Lemma remove_first_app_some id l1 l2 order :
  find (WorkingStack.has_id id) l1 = Some order ->
  WorkingStack.remove_first id (l1 ++ l2) = WorkingStack.remove_first id l1 ++ l2.
Proof.
  induction l1 as [|o l1 IH]; simpl; [done|].
  destruct (WorkingStack.has_id id o); [done|]. intros H. simpl. by rewrite IH.
Qed.

(** X3.  An order pushed on a stack that has no order with its id is
    what [getOrderById] returns for that id, and the stack is then as it
    was before the push. *)
Theorem WorkingStack_push_getOrderById order stack :
  WorkingStack.peekOrderById (Order.id order) stack = None ->
  WorkingStack.getOrderById (Order.id order) (WorkingStack.push order stack)
  = (Some order, stack).
Proof.
  unfold WorkingStack.peekOrderById, WorkingStack.getOrderById, WorkingStack.push.
  intros H. rewrite find_app_none by done. simpl.
  unfold WorkingStack.has_id at 1. rewrite String.eqb_refl.
  rewrite remove_first_app_none by done. simpl.
  unfold WorkingStack.has_id. rewrite String.eqb_refl. by rewrite app_nil_r.
Qed.

Lemma WorkingStack_push_getOrderById_witness :
  let a := Order.mk "f" "read" "" "id1" in
  let b := Order.mk "g" "write" "x" "id2" in
  WorkingStack.getOrderById "id2" (WorkingStack.push b [a]) = (Some b, [a]).
Proof.
  intros a b. apply (WorkingStack_push_getOrderById b [a]). reflexivity.
Defined.

(** X4.  An order already in the stack wins over a later push with the
    same id: [getOrderById] after the push returns the older order, and
    the stack it leaves is the one it would have left before, with the
    pushed order at the end. *)
Theorem WorkingStack_push_keeps_older_first id older order stack :
  WorkingStack.peekOrderById id stack = Some older ->
  WorkingStack.getOrderById id (WorkingStack.push order stack)
  = (Some older, WorkingStack.push order (snd (WorkingStack.getOrderById id stack))).
Proof.
  unfold WorkingStack.peekOrderById, WorkingStack.getOrderById, WorkingStack.push.
  intros H. rewrite (find_app_some _ _ _ _ H), H. simpl.
  by rewrite (remove_first_app_some _ _ _ _ H).
Qed.

Lemma WorkingStack_push_keeps_older_first_witness :
  let a := Order.mk "f" "read" "" "id1" in
  let b := Order.mk "g" "write" "x" "id1" in
  WorkingStack.getOrderById "id1" (WorkingStack.push b [a]) = (Some a, [b]).
Proof.
  intros a b. apply (WorkingStack_push_keeps_older_first "id1" a b [a]). reflexivity.
Defined.

(** X5.  [push] then [pop] gives the pushed item back and the stack as
    it was; [peek] after [push] sees the pushed item, the size grows by
    one and the stack is not empty. *)
Theorem WorkingStack_push_pop item stack :
  WorkingStack.pop (WorkingStack.push item stack) = (Some item, stack) /\
  WorkingStack.peek (WorkingStack.push item stack) = Some item /\
  WorkingStack.size (WorkingStack.push item stack) = S (WorkingStack.size stack) /\
  WorkingStack.isEmpty (WorkingStack.push item stack) = false.
Proof.
  unfold WorkingStack.pop, WorkingStack.peek, WorkingStack.size, WorkingStack.isEmpty,
    WorkingStack.push.
  rewrite last_snoc, removelast_last, length_app. simpl.
  split_and!; try done; [lia|].
  replace (length stack + 1) with (S (length stack)) by lia. done.
Qed.

(** X6.  On an empty stack [pop] and [peek] return undefined and [pop]
    leaves the stack empty; on a stack that is not empty they return its
    last item, and [pop] leaves the items before it. *)
Theorem WorkingStack_pop_peek stack :
  if WorkingStack.isEmpty stack
  then stack = [] /\ WorkingStack.pop stack = (None, []) /\ WorkingStack.peek stack = None /\
       WorkingStack.size stack = 0
  else exists item rest,
         stack = rest ++ [item] /\ WorkingStack.pop stack = (Some item, rest) /\
         WorkingStack.peek stack = Some item /\
         WorkingStack.size stack = S (WorkingStack.size rest).
Proof.
  destruct stack as [|o stack _] using rev_ind.
  - by simpl.
  - unfold WorkingStack.isEmpty. rewrite length_app. simpl.
    replace (length stack + 1) with (S (length stack)) by lia. simpl.
    exists o, stack.
    unfold WorkingStack.pop, WorkingStack.peek, WorkingStack.size.
    rewrite last_snoc, removelast_last, length_app. simpl. split_and!; try done. lia.
Qed.

(** ** Order *)

(** X7.  The JSON element of a constructed order holds the path, type
    and data the constructor was given and not the id: two orders built
    from the same arguments have the same element although their ids
    differ. *)
Theorem Order_getAsJsonElement_of_new rnd rnd' path type data order order' :
  newOrder rnd path type data = inl order ->
  newOrder rnd' path type data = inl order' ->
  Order.getAsJsonElement order = (path, type, data) /\
  Order.getAsJsonElement order' = Order.getAsJsonElement order /\
  (rnd <> rnd' -> order <> order').
Proof.
  unfold newOrder. destruct (Order.valid_type type); [|done].
  intros [= <-] [= <-]. split_and!; try done. intros Hne [= ?]. done.
Qed.

Lemma Order_getAsJsonElement_of_new_witness :
  Order.getAsJsonElement (Order.mk "f" "write" "x" "id1") = ("f", "write", "x") /\
  Order.getAsJsonElement (Order.mk "f" "write" "x" "id2")
    = Order.getAsJsonElement (Order.mk "f" "write" "x" "id1") /\
  Order.mk "f" "write" "x" "id1" <> Order.mk "f" "write" "x" "id2".
Proof.
  destruct (Order_getAsJsonElement_of_new "id1" "id2" "f" "write" "x"
              (Order.mk "f" "write" "x" "id1") (Order.mk "f" "write" "x" "id2")
              eq_refl eq_refl) as (H1 & H2 & H3).
  split_and!; [exact H1|exact H2|apply H3; discriminate].
Defined.

(** ** FileHandler: the registry between steps, and the orders that exist *)

(** l.118-121 on an empty registry: the order is pushed and at once taken
    out again by [executeOrder], which defers or dispatches it. *)
Lemma orderExecution_idle order s :
  orderStack s = [] ->
  orderExecution order s
  = if decide (Order.path order ∈ lock s)
    then setTimeout (RetryExecute order (Order.id order)) (timeout s) s
    else match private_of_type (Order.type order) with
         | Some fn => dispatch fn order (set_lock (lock s ∪ {[Order.path order]}) s)
         | None => emit "error" (ErrData (UnknownOrderType order))
                     (set_lock (lock s ∪ {[Order.path order]}) s)
         end.
Proof.
  intros H. destruct s as [lk mx ev st tm pr re mi ti fl fi un co]. simpl in H. subst st.
  unfold orderExecution, executeOrder, WorkingStack.getOrderById, WorkingStack.push.
  simpl. unfold WorkingStack.has_id. rewrite String.eqb_refl. simpl.
  destruct (decide _); [done|]. by destruct (private_of_type _).
Qed.

Lemma live_type_private type :
  live_type type ->
  exists fn, private_of_type type = Some fn /\
             fn <> createFilePrivate /\ fn <> deleteFilePrivate.
Proof. intros [-> | [-> | ->]]; eexists; (split; [reflexivity|]); by split. Qed.

Lemma orderExecution_sched_ok order s :
  live_type (Order.type order) -> sched_ok s -> sched_ok (orderExecution order s).
Proof.
  intros Hl (Hs & Ht & Hi). rewrite orderExecution_idle by done.
  destruct (live_type_private _ Hl) as (fn & Hfn & _).
  destruct (decide _).
  - split_and!; simpl; [done| |done].
    apply Forall_app. split; [done|]. apply Forall_singleton. by split.
  - rewrite Hfn. unfold dispatch, private_call. destruct (has_nul _); [by split_and!|].
    split_and!; simpl; [done|done|].
    apply Forall_app. split; [done|]. apply Forall_singleton. by split.
Qed.

Lemma setTimeout_sched_ok cb delay s :
  timer_live (delay, cb) -> sched_ok s -> sched_ok (setTimeout cb delay s).
Proof.
  intros Hcb (Hs & Ht & Hi). split_and!; simpl; [done| |done].
  apply Forall_app. split; [done|]. by apply Forall_singleton.
Qed.

Lemma read_sched_ok rnd path s : sched_ok s -> sched_ok (snd (read rnd path s)).
Proof.
  intros H. unfold read, new_promise. destruct (at_capacity _ _); simpl.
  - by apply setTimeout_sched_ok.
  - match goal with |- context [orderExecution ?o ?s0] =>
      assert (sched_ok (orderExecution o s0)) as (? & ? & ?)
        by (apply orderExecution_sched_ok; [left; reflexivity|exact H])
    end.
    by split_and!.
Qed.

Lemma call_sched_ok r rnd s : sched_ok s -> sched_ok (snd (call r rnd s)).
Proof.
  intros H. destruct r; simpl; [by apply read_sched_ok|..].
  - unfold write, new_promise. destruct (at_capacity _ _); simpl.
    + by apply (setTimeout_sched_ok (RetryWrite path)).
    + apply orderExecution_sched_ok; [right; left; reflexivity|exact H].
  - unfold create, new_promise. destruct (at_capacity _ _); simpl; [|exact H].
    by apply (setTimeout_sched_ok (RetryCreate path)).
  - unfold delete_, new_promise. destruct (at_capacity _ _); simpl; [|exact H].
    by apply (setTimeout_sched_ok (RetryDelete path)).
  - unfold append, new_promise. destruct (at_capacity _ _); simpl.
    + by apply (setTimeout_sched_ok (RetryAppend path)).
    + apply orderExecution_sched_ok; [right; right; reflexivity|exact H].
Qed.

Lemma run_timer_sched_ok cb rnd s :
  timer_live (None, cb) -> sched_ok s -> sched_ok (run_timer cb rnd s).
Proof.
  intros Hcb H. destruct cb; simpl;
    try (by apply (read_sched_ok rnd path) in H).
  - destruct (read rnd path s) as [p' s'] eqn:E.
    assert (s' = snd (read rnd path s)) as -> by (by rewrite E).
    apply (read_sched_ok rnd path) in H. unfold then_forward.
    by destruct (promises _ !! p') as [[]|].
  - by apply (read_sched_ok rnd path (set_console (console s ++ ["retrying"]) s)) in H.
  - destruct Hcb as [<- Hl]. by apply orderExecution_sched_ok.
Qed.

Lemma step_sched_ok l s s' : sched_ok s -> step l s = Some s' -> sched_ok s'.
Proof.
  intros H. destruct l as [r rnd| |i rnd|i fault]; simpl.
  - intros [= <-]. by apply call_sched_ok.
  - destruct (microtasks s) as [|m rest]; [done|]. intros [= <-].
    destruct m as [path|p st]; simpl; [exact H|].
    by destruct (settle_shape p st (set_microtasks rest s)) as (P & ms & ->).
  - destruct (microtasks s); [|done].
    destruct (timers s !! i) as [[delay cb]|] eqn:E; [|done]. intros [= <-].
    destruct H as (Hs & Ht & Hi). apply run_timer_sched_ok.
    + rewrite Forall_forall in Ht. apply (Ht (delay, cb)). by eapply list_elem_of_lookup_2.
    + split_and!; simpl; [done| |done]. by apply Forall_delete_idx.
  - destruct (microtasks s); [|done].
    destruct (inflight s !! i) as [[fn order]|] eqn:E; [|done]. intros [= <-].
    destruct H as (Hs & Ht & Hi).
    assert (sched_ok (set_inflight (delete i (inflight s)) s)) as H'.
    { split_and!; simpl; [done|done|]. by apply Forall_delete_idx. }
    unfold complete, private_callback.
    destruct (fs_perform _ _ _ _) as [[content|e] fsys].
    + destruct (success_event _ _ _) as [ev data].
      match goal with |- context [emit ?ev ?d ?s0] =>
        by destruct (emit_shape ev d s0) as (P & ms & U & ->)
      end.
    + match goal with |- context [emit ?ev ?d ?s0] =>
        by destruct (emit_shape ev d s0) as (P & ms & U & ->)
      end.
Qed.

Lemma reachable_sched_ok s : reachable s -> sched_ok s.
Proof.
  induction 1 as [fsys m t s H|l s s' Hr IH H].
  - unfold constructor in H. destruct (_ <? _)%Z; [done|]. injection H as <-.
    split_and!; constructor.
  - by eapply step_sched_ok.
Qed.

(** X8.  Between two steps of the event loop the pending registry is
    empty: every order pushed by [orderExecution] or by a retry timer is
    taken out again by the [executeOrder] call that follows the push.  An
    order that waits for a locked path is held by its retry timer, under
    its own id. *)
Theorem registry_is_empty_between_steps s :
  reachable s ->
  orderStack s = [] /\
  WorkingStack.isEmpty (orderStack s) = true /\
  (forall delay order id, (delay, RetryExecute order id) ∈ timers s -> Order.id order = id).
Proof.
  intros (Hs & Ht & _)%reachable_sched_ok. rewrite Hs. split_and!; try done.
  intros delay order id Hin. rewrite Forall_forall in Ht. by apply (Ht _ Hin).
Qed.

Lemma registry_is_empty_between_steps_witness :
  exists s,
    session ∅ None None
      [Call (Write "f" "a") "id1"; Call (Append "f" "b") "id2"; Call (Read "g") "id3"] = Some s /\
    orderStack s = [] /\
    WorkingStack.isEmpty (orderStack s) = true /\
    (forall delay order id, (delay, RetryExecute order id) ∈ timers s -> Order.id order = id).
Proof.
  eexists. split; [vm_compute; reflexivity|].
  apply registry_is_empty_between_steps.
  eapply (session_reachable ∅ None None
            [Call (Write "f" "a") "id1"; Call (Append "f" "b") "id2"; Call (Read "g") "id3"]).
  vm_compute. reflexivity.
Defined.

(** ** FileHandler: what reaches the file system *)

Lemma executeOrder_files id s : files (executeOrder id s) = files s.
Proof.
  unfold executeOrder, WorkingStack.getOrderById.
  destruct (find _ _) as [order|]; [|done].
  simpl. destruct (decide _); [done|].
  destruct (private_of_type _);
    [unfold dispatch, private_call; by destruct (has_nul _)|].
  match goal with |- context [emit ?ev ?d ?s0] =>
    by destruct (emit_shape ev d s0) as (P & ms & U & ->)
  end.
Qed.

Lemma read_files rnd path s : files (snd (read rnd path s)) = files s.
Proof.
  unfold read, new_promise. destruct (at_capacity _ _); simpl; [done|].
  unfold orderExecution. by rewrite executeOrder_files.
Qed.

Lemma call_files r rnd s : files (snd (call r rnd s)) = files s.
Proof.
  destruct r; simpl; [apply read_files|..].
  - unfold write, new_promise. destruct (at_capacity _ _); simpl; [done|].
    unfold orderExecution. by rewrite executeOrder_files.
  - unfold create, new_promise. by destruct (at_capacity _ _).
  - unfold delete_, new_promise. by destruct (at_capacity _ _).
  - unfold append, new_promise. destruct (at_capacity _ _); simpl; [done|].
    unfold orderExecution. by rewrite executeOrder_files.
Qed.

Lemma run_timer_files cb rnd s : files (run_timer cb rnd s) = files s.
Proof.
  destruct cb; simpl; try apply (read_files rnd path).
  - destruct (read rnd path s) as [p' s'] eqn:E.
    assert (s' = snd (read rnd path s)) as -> by (by rewrite E).
    unfold then_forward. destruct (promises _ !! p') as [[]|]; simpl; apply read_files.
  - apply (read_files rnd path (set_console (console s ++ ["retrying"]) s)).
  - by rewrite executeOrder_files.
Qed.

(** X9.  No order of type 'create' or 'delete' ever exists: in every
    state of the scheduler each fs call in flight was issued by the
    private method its order's type names, and that method is
    [readFilePrivate], [writeFilePrivate] or [appendFilePrivate], never
    [createFilePrivate] or [deleteFilePrivate].  Hence no step removes a
    file: a path that has a file before a step has one after it. *)
Theorem create_and_delete_never_reach_the_file_system s :
  reachable s ->
  (forall fn order,
     (fn, order) ∈ inflight s ->
     private_of_type (Order.type order) = Some fn /\
     fn <> createFilePrivate /\ fn <> deleteFilePrivate) /\
  (forall order, order ∈ held_orders s -> Order.type order ∈ ["read"; "write"; "append"]) /\
  (forall l s' path,
     step l s = Some s' -> is_Some (files s !! path) -> is_Some (files s' !! path)).
Proof.
  intros Hr. pose proof (reachable_sched_ok s Hr) as (Hs & Ht & Hi).
  rewrite Forall_forall in Ht. rewrite Forall_forall in Hi.
  assert (forall fn order, (fn, order) ∈ inflight s ->
            private_of_type (Order.type order) = Some fn /\
            fn <> createFilePrivate /\ fn <> deleteFilePrivate) as Hfl.
  { intros fn order [Hl Hfn]%Hi. simpl in *.
    destruct (live_type_private _ Hl) as (fn' & Hfn' & ? & ?).
    rewrite Hfn in Hfn'. injection Hfn' as ->. by split_and!. }
  split_and!.
  - exact Hfl.
  - intros order. unfold held_orders, timer_orders. rewrite Hs. simpl.
    rewrite elem_of_app, list_elem_of_omap, list_elem_of_fmap.
    assert (forall type, live_type type -> type ∈ ["read"; "write"; "append"]) as Hin.
    { intros type [-> | [-> | ->]]; rewrite !elem_of_cons; auto. }
    intros [([delay cb] & Hcb & Ho)|([fn o] & -> & Hc)].
    + apply Ht in Hcb. simpl in *. destruct cb; try done. injection Ho as ->.
      apply Hin, Hcb.
    + apply Hi in Hc. apply Hin, Hc.
  - intros l s' path Hstep Hfile. destruct l as [r rnd| |i rnd|i fault]; simpl in Hstep.
    + injection Hstep as <-. by rewrite call_files.
    + destruct (microtasks s) as [|m rest]; [done|]. injection Hstep as <-.
      destruct m as [p|p st]; simpl; [done|].
      by destruct (settle_shape p st (set_microtasks rest s)) as (P & ms & ->).
    + destruct (microtasks s); [|done].
      destruct (timers s !! i) as [[delay cb]|]; [|done]. injection Hstep as <-.
      by rewrite run_timer_files.
    + destruct (microtasks s); [|done].
      destruct (inflight s !! i) as [[fn order]|] eqn:E; [|done]. injection Hstep as <-.
      destruct (Hfl fn order) as (_ & Hc & Hd); [by eapply list_elem_of_lookup_2|].
      assert (is_Some (snd (fs_perform fn order fault (files s)) !! path)) as Hafter.
      { unfold fs_perform. destruct fault; [done|].
        destruct fn; try done; simpl.
        - by destruct (files s !! Order.path order).
        - rewrite lookup_insert. by destruct (decide _).
        - rewrite lookup_insert. by destruct (decide _). }
      unfold complete, private_callback.
      change (files (set_inflight (delete i (inflight s)) s)) with (files s).
      destruct (fs_perform fn order fault (files s)) as [[content|e] fsys]; simpl in Hafter.
      * destruct (success_event fn order content) as [ev data]. cbv beta iota.
        match goal with |- context [emit ?ev ?d ?s0] =>
          by destruct (emit_shape ev d s0) as (P & ms & U & ->)
        end.
      * match goal with |- context [emit ?ev ?d ?s0] =>
          by destruct (emit_shape ev d s0) as (P & ms & U & ->)
        end.
Qed.

Lemma create_and_delete_never_reach_the_file_system_witness :
  exists s s',
    session {["f" := "x"]} None None
      [Call (Delete "f") ""; Call (Create "g") ""; Call (Write "f" "y") "id1"; RunMicrotask]
      = Some s /\
    step (Complete 0 None) s = Some s' /\
    (private_of_type "write" = Some writeFilePrivate /\
     writeFilePrivate <> createFilePrivate /\ writeFilePrivate <> deleteFilePrivate) /\
    "write" ∈ ["read"; "write"; "append"] /\
    is_Some (files s' !! "f").
Proof.
  eexists _, _. split; [vm_compute; reflexivity|].
  match goal with |- step _ ?s = _ /\ _ =>
    assert (reachable s) as Hr
      by (eapply (session_reachable {["f" := "x"]} None None
                    [Call (Delete "f") ""; Call (Create "g") ""; Call (Write "f" "y") "id1";
                     RunMicrotask]); vm_compute; reflexivity);
    destruct (create_and_delete_never_reach_the_file_system s Hr) as (H1 & H2 & H3)
  end.
  split; [vm_compute; reflexivity|].
  split; [|split].
  - refine (H1 writeFilePrivate (Order.mk "f" "write" "y" "id1") _). vm_compute. constructor.
  - refine (H2 (Order.mk "f" "write" "y" "id1") _). vm_compute. constructor.
  - refine (H3 (Complete 0 None) _ "f" _ _); [vm_compute; reflexivity|]. vm_compute. eauto.
Defined.



(** ** FileHandler: round trips through the file system *)


Lemma state_eta s :
  mkState (lock s) (maxListeners s) (events s) (orderStack s) (timeout s) (promises s)
    (reactions s) (microtasks s) (timers s) (inflight s) (files s) (uncaught s) (console s)
  = s.
Proof. by destruct s. Qed.

Lemma emit_unheard ev data s :
  ev <> "error" -> events s !! ev = None -> emit ev data s = s.
Proof.
  intros Hne He. unfold emit, listeners. rewrite He. simpl.
  by destruct (String.eqb_spec ev "error").
Qed.



Lemma foldl_read_uncaught order content ls s :
  uncaught (foldl (call_listener (ReadData order content)) s ls) = uncaught s.
Proof.
  revert s. induction ls as [|l ls IH]; intros s; [done|].
  simpl. rewrite IH. destruct l as [oid r]. unfold call_listener. simpl.
  destruct (String.eqb _ _); [|done].
  by destruct (settle_shape r (Fulfilled (VString content)) s) as (P & ms & ->).
Qed.

Lemma emit_read_uncaught order content s :
  uncaught (emit "read" (ReadData order content) s) = uncaught s.
Proof.
  unfold emit. destruct (listeners "read" s); [done|]. apply foldl_read_uncaught.
Qed.





















(** ** FileHandler: what a locked path means *)

Lemma backed_ext_refl s : backed_ext s s.
Proof. split; auto. Qed.

Lemma backed_ext_trans s1 s2 s3 : backed_ext s1 s2 -> backed_ext s2 s3 -> backed_ext s1 s3.
Proof.
  intros [Hi Hl] [Hi' Hl']. split; [auto|].
  intros path [H|[H|H]]%Hl'; [|auto|auto]. apply Hl in H as [H|[H|H]]; [auto|auto|].
  right. right. unfold inflight_paths in *. apply list_elem_of_fmap in H as (c & -> & Hc).
  apply list_elem_of_fmap. eauto.
Qed.

Lemma backed_ext_same s s' : lock s' = lock s -> inflight s' = inflight s -> backed_ext s s'.
Proof.
  intros Hl Hi. split.
  - intros c. by rewrite Hi.
  - intros path. rewrite Hl. auto.
Qed.

Lemma executeOrder_backed_ext id s : types_ok s -> backed_ext s (executeOrder id s).
Proof.
  intros (Hs & _ & _). unfold executeOrder, WorkingStack.getOrderById.
  destruct (find _ _) as [order|] eqn:E; [|apply backed_ext_refl].
  assert (order_ok order) as [fn Hfn]%order_ok_private by (eapply find_Forall; eauto).
  simpl. destruct (decide _); [by apply backed_ext_same|].
  rewrite Hfn. unfold dispatch, private_call.
  destruct (has_nul (Order.path order)) eqn:Hn; split; simpl.
  - auto.
  - intros path [H|H]%elem_of_union; [auto|].
    apply elem_of_singleton in H as ->. auto.
  - intros c H. apply elem_of_app. auto.
  - intros path [H|H]%elem_of_union; [auto|].
    apply elem_of_singleton in H as ->. right. right.
    unfold inflight_paths. simpl. rewrite fmap_app. apply elem_of_app. right.
    by apply list_elem_of_singleton.
Qed.

Lemma orderExecution_backed_ext order s :
  order_ok order -> types_ok s -> backed_ext s (orderExecution order s).
Proof.
  intros Ho (Hs & Ht & Hi).
  apply (backed_ext_trans _ (set_orderStack (WorkingStack.push order (orderStack s)) s));
    [by apply backed_ext_same|].
  apply executeOrder_backed_ext. split_and!; simpl; [|done|done].
  apply Forall_app. split; [done|]. by apply Forall_singleton.
Qed.

Lemma read_backed_ext rnd path s : types_ok s -> backed_ext s (snd (read rnd path s)).
Proof.
  intros H. unfold read, new_promise. destruct (at_capacity _ _); simpl;
    [by apply backed_ext_same|].
  match goal with |- context [orderExecution ?o ?s0] =>
    apply (backed_ext_trans _ s0); [by apply backed_ext_same|];
    apply (backed_ext_trans _ (orderExecution o s0));
      [apply orderExecution_backed_ext; [reflexivity|exact H]|by apply backed_ext_same]
  end.
Qed.

Lemma call_backed_ext r rnd s : types_ok s -> backed_ext s (snd (call r rnd s)).
Proof.
  intros H. destruct r; simpl; [by apply read_backed_ext|..].
  - unfold write, new_promise. destruct (at_capacity _ _); simpl; [by apply backed_ext_same|].
    apply (backed_ext_trans _ (orderExecution (Order.mk path "write" content rnd) s));
      [apply orderExecution_backed_ext; [reflexivity|exact H]|by apply backed_ext_same].
  - unfold create, new_promise. destruct (at_capacity _ _); by apply backed_ext_same.
  - unfold delete_, new_promise. destruct (at_capacity _ _); by apply backed_ext_same.
  - unfold append, new_promise. destruct (at_capacity _ _); simpl; [by apply backed_ext_same|].
    apply (backed_ext_trans _ (orderExecution (Order.mk path "append" content rnd) s));
      [apply orderExecution_backed_ext; [reflexivity|exact H]|by apply backed_ext_same].
Qed.

Lemma run_timer_backed_ext cb rnd s :
  timer_ok (None, cb) -> types_ok s -> backed_ext s (run_timer cb rnd s).
Proof.
  intros Hcb H. destruct cb; simpl.
  - destruct (read rnd path s) as [p' s'] eqn:E.
    assert (s' = snd (read rnd path s)) as -> by (by rewrite E).
    eapply backed_ext_trans; [by apply read_backed_ext|].
    unfold then_forward. destruct (promises _ !! p') as [[]|];
      first [apply backed_ext_refl|by apply backed_ext_same].
  - apply (backed_ext_trans _ (set_console (console s ++ ["retrying"]) s));
      [by apply backed_ext_same|].
    eapply backed_ext_trans; [by apply (read_backed_ext rnd path)|by apply backed_ext_same].
  - eapply backed_ext_trans; [by apply (read_backed_ext rnd path)|by apply backed_ext_same].
  - eapply backed_ext_trans; [by apply (read_backed_ext rnd path)|by apply backed_ext_same].
  - eapply backed_ext_trans; [by apply (read_backed_ext rnd path)|by apply backed_ext_same].
  - apply (backed_ext_trans _ (set_orderStack (WorkingStack.push order (orderStack s)) s));
      [by apply backed_ext_same|].
    apply executeOrder_backed_ext. destruct H as (Hs & Ht & Hi).
    split_and!; simpl; [|done|done].
    apply Forall_app. split; [done|]. by apply Forall_singleton.
Qed.

Lemma reachable_lock_backed s :
  reachable s ->
  forall path, path ∈ lock s -> has_nul path = false -> path ∈ inflight_paths s.
Proof.
  induction 1 as [fsys m t s H|l s s' Hr IH H].
  - unfold constructor in H. destruct (_ <? _)%Z; [done|]. injection H as <-.
    intros path Hp. simpl in Hp. by apply not_elem_of_empty in Hp.
  - pose proof (reachable_types_ok s Hr) as Ht.
    assert (forall s1, backed_ext s s1 ->
              forall path, path ∈ lock s1 -> has_nul path = false -> path ∈ inflight_paths s1)
      as Hext.
    { intros s1 [Hi Hl] path [Hp|[Hp|Hp]]%Hl Hn; [|congruence|done].
      apply IH in Hp; [|done].
      unfold inflight_paths in *. apply list_elem_of_fmap in Hp as (c & -> & Hc).
      apply list_elem_of_fmap. eauto. }
    destruct l as [r rnd| |i rnd|i fault]; simpl in H.
    + injection H as <-. by apply Hext, call_backed_ext.
    + destruct (microtasks s) as [|m rest]; [done|]. injection H as <-.
      destruct m as [p|p st]; simpl.
      * intros path [Hp _]%elem_of_difference. by apply IH.
      * destruct (settle_shape p st (set_microtasks rest s)) as (P & ms & ->). exact IH.
    + destruct (microtasks s) eqn:Hm; [|done].
      destruct (timers s !! i) as [[delay cb]|] eqn:E; [|done]. injection H as <-.
      destruct Ht as (Hs & Htm & Hi).
      apply (Hext (run_timer cb rnd (set_timers (delete i (timers s)) s))).
      apply (backed_ext_trans _ (set_timers (delete i (timers s)) s));
        [by apply backed_ext_same|].
      apply run_timer_backed_ext.
      * rewrite Forall_forall in Htm. apply (Htm (delay, cb)). by eapply list_elem_of_lookup_2.
      * split_and!; simpl; [done| |done]. by apply Forall_delete_idx.
    + destruct (microtasks s) eqn:Hm; [|done].
      destruct (inflight s !! i) as [[fn order]|] eqn:E; [|done]. injection H as <-.
      pose proof (lock_released_before_completion s Hr Hm) as Hl.
      intros path Hp Hn. exfalso. revert Hp.
      unfold complete, private_callback.
      destruct (fs_perform _ _ _ _) as [[content|e] fsys].
      * destruct (success_event fn order content) as [ev data]. cbv beta iota.
        match goal with |- context [emit ?ev ?d ?s0] =>
          destruct (emit_shape ev d s0) as (P & ms & U & ->)
        end.
        simpl. intros Hp%Hl. congruence.
      * match goal with |- context [emit ?ev ?d ?s0] =>
          destruct (emit_shape ev d s0) as (P & ms & U & ->)
        end.
        simpl. intros Hp%Hl. congruence.
Qed.

(** *** A path the fs functions refuse stays locked *)

Lemma issue_ext_refl s : issue_ext s s.
Proof. split_and!; [done|exists []|exists []]; by rewrite app_nil_r. Qed.

Lemma issue_ext_trans s1 s2 s3 : issue_ext s1 s2 -> issue_ext s2 s3 -> issue_ext s1 s3.
Proof.
  intros (Hl & (fl & Hf & Hfl) & (ms & Hm & Hms)) (Hl' & (fl' & Hf' & Hfl') & (ms' & Hm' & Hms')).
  split_and!.
  - intros path Hp. by apply Hl', Hl.
  - exists (fl ++ fl'). rewrite Hf', Hf, <- app_assoc. split; [done|]. by apply Forall_app.
  - exists (ms ++ ms'). rewrite Hm', Hm, <- app_assoc. split; [done|]. by apply Forall_app.
Qed.

Lemma issue_ext_same s s' :
  lock s' = lock s -> inflight s' = inflight s -> microtasks s' = microtasks s ->
  issue_ext s s'.
Proof.
  intros Hl Hf Hm. split_and!; [by rewrite Hl|exists []|exists []]; by rewrite app_nil_r.
Qed.

Lemma issue_ext_ok s s' : issue_ok s -> issue_ext s s' -> issue_ok s'.
Proof.
  intros [Hf Hm] (_ & (fl & Hf' & Hfl) & (ms & Hm' & Hms)).
  unfold issue_ok. rewrite Hf', Hm'. split; by apply Forall_app.
Qed.

Lemma settle_issue_ext p st s : issue_ext s (settle p st s).
Proof.
  unfold settle. destruct (promises s !! p) as [[]|]; try apply issue_ext_refl.
  split_and!; simpl; [done|exists []; by rewrite app_nil_r|].
  eexists. split; [done|]. unfold reactions_of. apply Forall_forall.
  intros m (r & -> & _)%list_elem_of_fmap. exact I.
Qed.

Lemma then_forward_issue_ext src tgt s : issue_ext s (then_forward src tgt s).
Proof.
  unfold then_forward. destruct (promises s !! src) as [[]|];
    try (by apply issue_ext_same); try apply issue_ext_refl;
    (split_and!; simpl; [done|exists []; by rewrite app_nil_r|]);
    (eexists; split; [done|]); by apply Forall_singleton.
Qed.

Lemma emit_issue_ext ev data s : issue_ext s (emit ev data s).
Proof.
  unfold emit. destruct (listeners ev s) as [|l ls].
  - destruct (String.eqb ev "error"); [by apply issue_ext_same|apply issue_ext_refl].
  - generalize (l :: ls). clear l ls. intros ls. revert s.
    induction ls as [|l ls IH]; intros s; [apply issue_ext_refl|].
    simpl. eapply issue_ext_trans; [|apply IH].
    destruct l as [oid r]. unfold call_listener.
    destruct (payload_order data); [|by apply issue_ext_same].
    destruct (String.eqb _ _); [apply settle_issue_ext|apply issue_ext_refl].
Qed.

Lemma executeOrder_issue_ext id s : issue_ext s (executeOrder id s).
Proof.
  unfold executeOrder, WorkingStack.getOrderById.
  destruct (find _ _) as [order|]; [|apply issue_ext_refl].
  simpl. destruct (decide _); [by apply issue_ext_same|].
  destruct (private_of_type _).
  - unfold dispatch, private_call. destruct (has_nul (Order.path order)) eqn:Hn.
    + split_and!; simpl; [apply union_subseteq_l|exists []|exists []]; by rewrite app_nil_r.
    + split_and!; simpl; [apply union_subseteq_l|..];
        (eexists; split; [done|]); by apply Forall_singleton.
  - match goal with |- issue_ext _ (emit _ _ ?s0) =>
      apply (issue_ext_trans _ s0); [|apply emit_issue_ext]
    end.
    split_and!; simpl; [apply union_subseteq_l|exists []|exists []]; by rewrite app_nil_r.
Qed.

Lemma orderExecution_issue_ext order s : issue_ext s (orderExecution order s).
Proof.
  unfold orderExecution.
  eapply issue_ext_trans; [|apply executeOrder_issue_ext]. by apply issue_ext_same.
Qed.

Lemma read_issue_ext rnd path s : issue_ext s (snd (read rnd path s)).
Proof.
  unfold read, new_promise. destruct (at_capacity _ _); simpl; [by apply issue_ext_same|].
  match goal with |- context [orderExecution ?o ?s0] =>
    apply (issue_ext_trans _ s0); [by apply issue_ext_same|];
    apply (issue_ext_trans _ (orderExecution o s0)); [apply orderExecution_issue_ext|]
  end.
  by apply issue_ext_same.
Qed.

Lemma call_issue_ext r rnd s : issue_ext s (snd (call r rnd s)).
Proof.
  destruct r; simpl; [apply read_issue_ext|..].
  - unfold write, new_promise. destruct (at_capacity _ _); simpl; [by apply issue_ext_same|].
    eapply issue_ext_trans; [apply orderExecution_issue_ext|by apply issue_ext_same].
  - unfold create, new_promise. destruct (at_capacity _ _); by apply issue_ext_same.
  - unfold delete_, new_promise. destruct (at_capacity _ _); by apply issue_ext_same.
  - unfold append, new_promise. destruct (at_capacity _ _); simpl; [by apply issue_ext_same|].
    eapply issue_ext_trans; [apply orderExecution_issue_ext|by apply issue_ext_same].
Qed.

Lemma run_timer_issue_ext cb rnd s : issue_ext s (run_timer cb rnd s).
Proof.
  destruct cb; simpl.
  - destruct (read rnd path s) as [p' s'] eqn:E.
    assert (s' = snd (read rnd path s)) as -> by (by rewrite E).
    eapply issue_ext_trans; [apply read_issue_ext|apply then_forward_issue_ext].
  - apply (issue_ext_trans _ (set_console (console s ++ ["retrying"]) s));
      [by apply issue_ext_same|].
    eapply issue_ext_trans; [apply (read_issue_ext rnd path)|by apply issue_ext_same].
  - eapply issue_ext_trans; [apply (read_issue_ext rnd path)|by apply issue_ext_same].
  - eapply issue_ext_trans; [apply (read_issue_ext rnd path)|by apply issue_ext_same].
  - eapply issue_ext_trans; [apply (read_issue_ext rnd path)|by apply issue_ext_same].
  - eapply issue_ext_trans; [|apply executeOrder_issue_ext]. by apply issue_ext_same.
Qed.

Lemma complete_issue_ext fn order fault s : issue_ext s (complete fn order fault s).
Proof.
  unfold complete, private_callback.
  destruct (fs_perform _ _ _ _) as [[content|e] fsys].
  - destruct (success_event _ _ _) as [ev data].
    eapply issue_ext_trans; [|apply emit_issue_ext]. by apply issue_ext_same.
  - eapply issue_ext_trans; [|apply emit_issue_ext]. by apply issue_ext_same.
Qed.

Lemma step_issue_ok l s s' : issue_ok s -> step l s = Some s' -> issue_ok s'.
Proof.
  intros H. destruct l as [r rnd| |i rnd|i fault]; simpl.
  - intros [= <-]. eapply issue_ext_ok; [done|apply call_issue_ext].
  - destruct (microtasks s) as [|m rest] eqn:E; [done|]. intros [= <-].
    destruct H as [Hf Hm]. rewrite E in Hm. apply Forall_cons in Hm as [_ Hm].
    destruct m as [path|p st]; simpl; [by split|].
    eapply issue_ext_ok; [|apply settle_issue_ext]. by split.
  - destruct (microtasks s); [|done].
    destruct (timers s !! i) as [[delay cb]|]; [|done]. intros [= <-].
    eapply issue_ext_ok; [|apply run_timer_issue_ext]. exact H.
  - destruct (microtasks s) eqn:E; [|done].
    destruct (inflight s !! i) as [[fn order]|]; [|done]. intros [= <-].
    eapply issue_ext_ok; [|apply complete_issue_ext].
    destruct H as [Hf Hm]. split; simpl; [by apply Forall_delete_idx|done].
Qed.

Lemma reachable_issue_ok s : reachable s -> issue_ok s.
Proof.
  induction 1 as [fsys m t s H|l s s' Hr IH H].
  - unfold constructor in H. destruct (_ <? _)%Z; [done|]. injection H as <-.
    split; constructor.
  - by eapply step_issue_ok.
Qed.

Lemma step_keeps_refused_path_locked l s s' path :
  issue_ok s -> step l s = Some s' ->
  path ∈ lock s -> has_nul path = true -> path ∈ lock s'.
Proof.
  intros [Hf Hm] Hstep Hp Hn.
  assert (forall s0 s1, lock s0 = lock s -> issue_ext s0 s1 -> path ∈ lock s1) as Hext.
  { intros s0 s1 Hl (Hsub & _). apply Hsub. by rewrite Hl. }
  destruct l as [r rnd| |i rnd|i fault]; simpl in Hstep.
  - injection Hstep as <-. by apply (Hext s), call_issue_ext.
  - destruct (microtasks s) as [|m rest] eqn:E; [done|]. injection Hstep as <-.
    apply Forall_cons in Hm as [Hm _].
    destruct m as [q|p st]; simpl.
    + apply elem_of_difference. split; [done|].
      intros ->%elem_of_singleton. simpl in Hm. congruence.
    + by apply (Hext (set_microtasks rest s)), settle_issue_ext.
  - destruct (microtasks s); [|done].
    destruct (timers s !! i) as [[delay cb]|]; [|done]. injection Hstep as <-.
    by apply (Hext (set_timers (delete i (timers s)) s)), run_timer_issue_ext.
  - destruct (microtasks s); [|done].
    destruct (inflight s !! i) as [[fn order]|]; [|done]. injection Hstep as <-.
    by apply (Hext (set_inflight (delete i (inflight s)) s)), complete_issue_ext.
Qed.

(** X14.  What a locked path means, in every state of the scheduler.  A
    locked path without NUL has an fs call in flight and its release
    queued as a microtask; so when the microtask queue is empty (the only
    moment a timer or an fs callback can run) the only paths locked are
    paths that hold NUL.  A locked path that holds NUL, on which the fs
    function threw at dispatch, has no fs call in flight and no release
    queued, and it is still locked after every step: it is never
    released. *)
Theorem locked_path_is_about_to_be_released_or_locked_for_ever s :
  reachable s ->
  (forall path, path ∈ lock s -> has_nul path = false ->
     path ∈ inflight_paths s /\ Unlock path ∈ microtasks s) /\
  (microtasks s = [] -> forall path, path ∈ lock s -> has_nul path = true) /\
  (forall path, path ∈ lock s -> has_nul path = true ->
     (path ∉ inflight_paths s) /\ (Unlock path ∉ microtasks s) /\
     forall l s', step l s = Some s' -> path ∈ lock s').
Proof.
  intros Hr. pose proof (reachable_issue_ok s Hr) as Hok. split_and!.
  - intros path Hp Hn.
    split; [by apply reachable_lock_backed|by apply reachable_lock_covered].
  - by apply lock_released_before_completion.
  - intros path Hp Hn. destruct Hok as [Hf Hm].
    rewrite Forall_forall in Hf. rewrite Forall_forall in Hm. split_and!.
    + unfold inflight_paths. intros (c & -> & Hc%Hf)%list_elem_of_fmap.
      unfold issued in Hc. congruence.
    + intros Hu%Hm. simpl in Hu. congruence.
    + intros l s' Hstep. eapply step_keeps_refused_path_locked; [by split; apply Forall_forall|done..].
Qed.

Lemma locked_path_is_about_to_be_released_or_locked_for_ever_witness :
  exists s s' s'',
    session ∅ None None [Call (Write "f" "a") "id1"] = Some s /\
    session ∅ None None [Call (Write (String Ascii.zero "f") "a") "id1"] = Some s' /\
    step (Call (Read (String Ascii.zero "f")) "id2") s' = Some s'' /\
    ("f" ∈ inflight_paths s /\ Unlock "f" ∈ microtasks s) /\
    has_nul (String Ascii.zero "f") = true /\
    ((String Ascii.zero "f" ∉ inflight_paths s') /\
     (Unlock (String Ascii.zero "f") ∉ microtasks s') /\
     String Ascii.zero "f" ∈ lock s'').
Proof.
  eexists _, _, _. split; [vm_compute; reflexivity|]. split; [vm_compute; reflexivity|].
  split; [vm_compute; reflexivity|].
  split; [|split].
  - refine (proj1 (locked_path_is_about_to_be_released_or_locked_for_ever _ _) "f" _ _).
    + eapply (session_reachable ∅ None None [Call (Write "f" "a") "id1"]).
      vm_compute. reflexivity.
    + vm_compute. reflexivity.
    + reflexivity.
  - refine (proj1 (proj2 (locked_path_is_about_to_be_released_or_locked_for_ever _ _)) _
              (String Ascii.zero "f") _).
    + eapply (session_reachable ∅ None None
                [Call (Write (String Ascii.zero "f") "a") "id1"]).
      vm_compute. reflexivity.
    + reflexivity.
    + vm_compute. reflexivity.
  - match goal with |- (_ ∉ inflight_paths ?s1) /\ _ /\ _ ∈ lock ?s2 =>
      pose proof (proj2 (proj2 (locked_path_is_about_to_be_released_or_locked_for_ever s1
        (session_reachable ∅ None None
           [Call (Write (String Ascii.zero "f") "a") "id1"] s1 eq_refl)))
        (String Ascii.zero "f")) as H
    end.
    destruct H as (H1 & H2 & H3); [vm_compute; reflexivity|reflexivity|].
    split; [exact H1|]. split; [exact H2|].
    refine (H3 (Call (Read (String Ascii.zero "f")) "id2") _ _). vm_compute. reflexivity.
Defined.

(** ** FileHandler: the promise a call returns *)

Lemma orderExecution_promises order s :
  order_ok order -> types_ok s -> promises (orderExecution order s) = promises s.
Proof.
  intros Ho (Hs & Ht & Hi). unfold orderExecution. rewrite executeOrder_promises; [done|].
  split_and!; simpl; [|done|done]. apply Forall_app. split; [done|]. by apply Forall_singleton.
Qed.

(** X15.  Every call of a public method returns a promise of its own, the
    next free entry of the promise table, and changes no promise that
    existed before.  The promise of [read] is pending when the call
    returns; the promises of [write] and [append] are already fulfilled
    with undefined, whether or not their fs call has been issued; the
    promises of [create] and [delete] are already rejected with
    ReferenceError, or fulfilled with undefined when the handler is at
    capacity. *)
Theorem call_returns_its_own_promise r rnd s :
  reachable s ->
  fst (call r rnd s) = length (promises s) /\
  promises (snd (call r rnd s))
  = promises s ++
    [match r with
     | Read _ => Pending
     | Write _ _ | Append _ _ => Fulfilled VUndefined
     | Create _ =>
         if at_capacity "create" s then Fulfilled VUndefined
         else Rejected (ReferenceError "content")
     | Delete _ =>
         if at_capacity "delete" s then Fulfilled VUndefined
         else Rejected (ReferenceError "content")
     end].
Proof.
  intros Ht%reachable_types_ok. destruct r; simpl.
  - unfold read, new_promise. destruct (at_capacity _ _); simpl; [done|].
    split; [done|]. rewrite orderExecution_promises; [done|reflexivity|].
    destruct Ht as (? & ? & ?). by split_and!.
  - unfold write, new_promise. destruct (at_capacity _ _); simpl; [done|].
    by rewrite orderExecution_promises.
  - unfold create, new_promise. by destruct (at_capacity _ _).
  - unfold delete_, new_promise. by destruct (at_capacity _ _).
  - unfold append, new_promise. destruct (at_capacity _ _); simpl; [done|].
    by rewrite orderExecution_promises.
Qed.

Lemma call_returns_its_own_promise_witness :
  exists s,
    session ∅ None None [Call (Read "f") "id1"] = Some s /\
    fst (call (Write "g" "x") "id2" s) = length (promises s) /\
    promises (snd (call (Write "g" "x") "id2" s)) = promises s ++ [Fulfilled VUndefined].
Proof.
  eexists. split; [vm_compute; reflexivity|].
  refine (call_returns_its_own_promise (Write "g" "x") "id2" _ _).
  eapply (session_reachable ∅ None None [Call (Read "f") "id1"]). vm_compute. reflexivity.
Defined.

(** ** FileHandler: retry timers and the listener ceiling *)

(** X16.  In every state of the scheduler [this.timeout] is undefined,
    whatever was passed to the constructor, and every pending timer was
    set with that undefined delay, for which Node waits 1 ms. *)
Theorem timers_wait_one_millisecond s :
  reachable s ->
  timeout s = None /\
  (forall delay cb, (delay, cb) ∈ timers s -> delay = None /\ timer_ms delay = 1%Z).
Proof.
  intros [Ht Hf]%retry_delay_is_undefined. split; [done|].
  intros delay cb Hin. rewrite Forall_forall in Hf. apply (Hf _ Hin).
Qed.

Lemma timers_wait_one_millisecond_witness :
  exists s,
    session ∅ (Some 100%Z) (Some 100%Z)
      [Call (Write "f" "a") "id1"; Call (Write "f" "b") "id2"] = Some s /\
    timeout s = None /\
    (forall delay cb, (delay, cb) ∈ timers s -> delay = None /\ timer_ms delay = 1%Z).
Proof.
  eexists. split; [vm_compute; reflexivity|].
  apply timers_wait_one_millisecond.
  eapply (session_reachable ∅ (Some 100%Z) (Some 100%Z)
            [Call (Write "f" "a") "id1"; Call (Write "f" "b") "id2"]).
  vm_compute. reflexivity.
Defined.

(** X17.  In every state of the scheduler the number of 'read' listeners
    is at most the listener ceiling, so over its whole life a handler
    admits at most [maxSyncWrites] reads; and the listeners resolve
    promises that are all different and all in the promise table: no two
    reads share a promise. *)
Theorem read_listeners_are_bounded_and_distinct s :
  reachable s ->
  (Z.of_nat (listenerCount "read" s) <= maxListeners s)%Z /\
  NoDup (map listener_target (listeners "read" s)) /\
  (forall l, l ∈ listeners "read" s -> listener_target l < length (promises s)).
Proof.
  intros Hr.
  assert ((Z.of_nat (listenerCount "read" s) <= maxListeners s)%Z /\
          NoDup (map listener_target (listeners "read" s))) as [Hb Hnd].
  { induction Hr as [fsys m t s H|l s s' Hr [Hb Hnd] H].
    - unfold constructor in H. destruct (Z.ltb_spec (default 1000%Z m) 0) as [|Hge]; [done|].
      injection H as <-. split; [done|constructor].
    - pose proof (reachable_refs_ok s Hr) as (Hl & _).
      apply step_events_step in H as (Hm & _ & [He|(Hc & id & He)]).
      + unfold listenerCount, listeners in *. by rewrite He, Hm.
      + unfold listenerCount, listeners in *. rewrite He, Hm, lookup_insert_eq. simpl.
        split.
        * unfold at_capacity, listenerCount, listeners, getMaxListeners in Hc.
          apply Z.eqb_neq in Hc. rewrite length_app. simpl. lia.
        * rewrite fmap_app. apply NoDup_app. split_and!; [done| |by apply NoDup_singleton].
          intros p Hp Hp'. simpl in Hp'. apply list_elem_of_singleton in Hp' as ->.
          apply list_elem_of_fmap in Hp as (l0 & Heq & Hin).
          specialize (Hl "read" l0 Hin). lia. }
  split_and!; [done|done|].
  intros l Hin. destruct (reachable_refs_ok s Hr) as (Hl & _). by apply (Hl "read").
Qed.

Lemma read_listeners_are_bounded_and_distinct_witness :
  exists s,
    session {["f" := "x"]} (Some 2%Z) None
      [Call (Read "f") "id1"; Call (Read "f") "id2"; Call (Read "f") "id3"] = Some s /\
    (Z.of_nat (listenerCount "read" s) <= maxListeners s)%Z /\
    NoDup (map listener_target (listeners "read" s)) /\
    (forall l, l ∈ listeners "read" s -> listener_target l < length (promises s)).
Proof.
  eexists. split; [vm_compute; reflexivity|].
  apply read_listeners_are_bounded_and_distinct.
  eapply (session_reachable {["f" := "x"]} (Some 2%Z) None
            [Call (Read "f") "id1"; Call (Read "f") "id2"; Call (Read "f") "id3"]).
  vm_compute. reflexivity.
Defined.

(** ** FileHandler: the exceptions that escape *)

Lemma nul_errors_escapes path new : nul_errors path new -> Forall escapes new.
Proof.
  intros [->|[_ ->]]; [constructor|]. apply Forall_singleton. right. by right.
Qed.

Lemma orderExecution_uncaught order s :
  orderStack s = [] -> live_type (Order.type order) ->
  exists new,
    uncaught (orderExecution order s) = uncaught s ++ new /\ nul_errors (Order.path order) new.
Proof.
  intros Hs Hl. rewrite orderExecution_idle by done.
  destruct (live_type_private _ Hl) as (fn & Hfn & _).
  destruct (decide _); [exists []; split; [by rewrite app_nil_r|by left]|].
  rewrite Hfn. unfold dispatch, private_call.
  destruct (has_nul (Order.path order)) eqn:Hn.
  - exists [TypeError "ERR_INVALID_ARG_VALUE"]. split; [done|by right].
  - exists []. split; [by rewrite app_nil_r|by left].
Qed.

Lemma read_uncaught rnd path s :
  orderStack s = [] ->
  exists new, uncaught (snd (read rnd path s)) = uncaught s ++ new /\ nul_errors path new.
Proof.
  intros Hs. unfold read, new_promise. destruct (at_capacity _ _); simpl.
  - exists []. split; [by rewrite app_nil_r|by left].
  - match goal with |- context [orderExecution ?o ?s0] =>
      destruct (orderExecution_uncaught o s0) as (new & Hnew & Hk);
        [exact Hs|left; reflexivity|]
    end.
    exists new. split; [exact Hnew|exact Hk].
Qed.

Lemma call_uncaught r rnd s :
  orderStack s = [] ->
  exists new,
    uncaught (snd (call r rnd s)) = uncaught s ++ new /\ nul_errors (request_path r) new.
Proof.
  intros Hs. destruct r; simpl; [by apply read_uncaught|..].
  - unfold write, new_promise. destruct (at_capacity _ _); simpl.
    + exists []. split; [by rewrite app_nil_r|by left].
    + destruct (orderExecution_uncaught (Order.mk path "write" content rnd) s)
        as (new & Hnew & Hk); [exact Hs|right; left; reflexivity|].
      exists new. split; [exact Hnew|exact Hk].
  - exists []. split; [|by left]. rewrite app_nil_r.
    unfold create, new_promise. by destruct (at_capacity _ _).
  - exists []. split; [|by left]. rewrite app_nil_r.
    unfold delete_, new_promise. by destruct (at_capacity _ _).
  - unfold append, new_promise. destruct (at_capacity _ _); simpl.
    + exists []. split; [by rewrite app_nil_r|by left].
    + destruct (orderExecution_uncaught (Order.mk path "append" content rnd) s)
        as (new & Hnew & Hk); [exact Hs|right; right; reflexivity|].
      exists new. split; [exact Hnew|exact Hk].
Qed.

Lemma retry_as_read_uncaught rnd path s :
  orderStack s = [] ->
  exists new,
    uncaught (retry_as_read rnd path s) = uncaught s ++ new /\ Forall escapes new.
Proof.
  intros Hs. destruct (read_uncaught rnd path s Hs) as (new & Hnew & Hk).
  exists (new ++ [ReferenceError "resolve"]).
  unfold retry_as_read, throw, unbound. simpl. rewrite Hnew, <- app_assoc. split; [done|].
  apply Forall_app. split; [by eapply nul_errors_escapes|].
  apply Forall_singleton. right. by left.
Qed.

Lemma fs_perform_error fn order fault fsys e fsys' :
  fs_perform fn order fault fsys = (inr e, fsys') -> exists code, e = HostError code.
Proof.
  unfold fs_perform. destruct fault as [code|]; [intros [= <- _]; eauto|].
  destruct fn; try done; destruct (fsys !! Order.path order); try done;
    intros [= <- _]; eauto.
Qed.

(** X18.  The exceptions a step lets escape are of three kinds only: the
    error of a failed fs call, thrown by the 'error' event nobody listens
    to; the ReferenceError of the retry closures of write, create, delete
    and append; and the TypeError of an fs function that refuses a path
    holding NUL, which rejects a promise nothing handles.  A call of a
    public method lets nothing escape unless its path holds NUL, and then
    at most that TypeError; a microtask lets nothing escape; the
    completion of an fs call lets at most the error of the call escape. *)
Theorem only_three_kinds_of_error_escape l s s' :
  reachable s ->
  step l s = Some s' ->
  (exists new, uncaught s' = uncaught s ++ new /\ Forall escapes new) /\
  (forall r rnd, l = Call r rnd ->
     uncaught s' = uncaught s \/
     has_nul (request_path r) = true /\
     uncaught s' = uncaught s ++ [TypeError "ERR_INVALID_ARG_VALUE"]) /\
  (l = RunMicrotask -> uncaught s' = uncaught s) /\
  (forall i fault, l = Complete i fault ->
     uncaught s' = uncaught s \/ exists code, uncaught s' = uncaught s ++ [HostError code]).
Proof.
  intros Hr Hstep. pose proof (reachable_sched_ok s Hr) as (Hs & Htm & _).
  pose proof (reachable_only_read s Hr) as Hev.
  assert (forall s0 : State, exists new : list JsError,
            uncaught s0 = uncaught s0 ++ new /\ Forall escapes new) as Hnone.
  { intros s0. exists []. split; [by rewrite app_nil_r|constructor]. }
  destruct l as [r rnd| |i rnd|i fault]; simpl in Hstep.
  - injection Hstep as <-. destruct (call_uncaught r rnd s Hs) as (new & Hnew & Hk).
    split_and!; [|intros r' rnd' [= <- <-]|done|done].
    + exists new. split; [done|by eapply nul_errors_escapes].
    + destruct Hk as [->|[Hn ->]]; [left; by rewrite Hnew, app_nil_r|by right].
  - destruct (microtasks s) as [|m rest]; [done|]. injection Hstep as <-.
    assert (uncaught (run_microtask m (set_microtasks rest s)) = uncaught s) as Hu.
    { destruct m as [p|p st]; simpl; [done|].
      by destruct (settle_shape p st (set_microtasks rest s)) as (P & ms & ->). }
    split_and!; [|done|done|done]. rewrite Hu. apply Hnone.
  - split_and!; [|done|done|done]. destruct (microtasks s); [|done].
    destruct (timers s !! i) as [[delay cb]|] eqn:E; [|done]. injection Hstep as <-.
    destruct cb; simpl.
    + destruct (read rnd path _) as [p' s1] eqn:E1.
      assert (s1 = snd (read rnd path (set_timers (delete i (timers s)) s))) as ->
        by (by rewrite E1).
      destruct (read_uncaught rnd path (set_timers (delete i (timers s)) s) Hs)
        as (new & Hnew & Hk).
      exists new. split; [|by eapply nul_errors_escapes].
      unfold then_forward. by destruct (promises _ !! p') as [[]|].
    + by apply (retry_as_read_uncaught rnd path
                  (set_console (console s ++ ["retrying"]) (set_timers (delete i (timers s)) s))).
    + by apply (retry_as_read_uncaught rnd path (set_timers (delete i (timers s)) s)).
    + by apply (retry_as_read_uncaught rnd path (set_timers (delete i (timers s)) s)).
    + by apply (retry_as_read_uncaught rnd path (set_timers (delete i (timers s)) s)).
    + rewrite Forall_forall in Htm.
      destruct (Htm (delay, RetryExecute order id)) as [<- Hl];
        [by eapply list_elem_of_lookup_2|].
      destruct (orderExecution_uncaught order (set_timers (delete i (timers s)) s) Hs Hl)
        as (new & Hnew & Hk).
      exists new. split; [exact Hnew|by eapply nul_errors_escapes].
  - destruct (microtasks s); [|done].
    destruct (inflight s !! i) as [[fn order]|] eqn:E; [|done]. injection Hstep as <-.
    assert (uncaught (complete fn order fault (set_inflight (delete i (inflight s)) s))
              = uncaught s \/
            exists code,
              uncaught (complete fn order fault (set_inflight (delete i (inflight s)) s))
              = uncaught s ++ [HostError code]) as Hu.
    { unfold complete, private_callback.
      change (files (set_inflight (delete i (inflight s)) s)) with (files s).
      destruct (fs_perform fn order fault (files s)) as [[content|e] fsys] eqn:Efs.
      - left. destruct fn; simpl; try (by rewrite emit_unheard by (done || by apply Hev)).
        by rewrite emit_read_uncaught.
      - right. destruct (fs_perform_error _ _ _ _ _ _ Efs) as [code ->]. exists code.
        unfold emit, listeners. simpl. by rewrite (Hev "error"). }
    split_and!; [|done|done|by intros ? ? _].
    destruct Hu as [->|[code ->]]; [apply Hnone|].
    eexists. split; [done|]. apply Forall_singleton. left. eauto.
Qed.

Lemma only_three_kinds_of_error_escape_witness :
  exists s s' s'',
    session ∅ None None [Call (Read "f") "id1"; RunMicrotask] = Some s /\
    step (Complete 0 None) s = Some s' /\
    step (Call (Append (String Ascii.zero "f") "a") "id2") s = Some s'' /\
    (exists new, uncaught s' = uncaught s ++ new /\ Forall escapes new) /\
    (uncaught s'' = uncaught s \/
     has_nul (String Ascii.zero "f") = true /\
     uncaught s'' = uncaught s ++ [TypeError "ERR_INVALID_ARG_VALUE"]).
Proof.
  eexists _, _, _. split; [vm_compute; reflexivity|].
  match goal with |- step _ ?s = _ /\ _ =>
    assert (reachable s) as Hr
      by (eapply (session_reachable ∅ None None [Call (Read "f") "id1"; RunMicrotask]);
          vm_compute; reflexivity)
  end.
  match goal with |- ?A /\ _ => assert A as Hs by (vm_compute; reflexivity) end.
  split; [exact Hs|].
  match goal with |- ?A /\ _ => assert A as Hs' by (vm_compute; reflexivity) end.
  split; [exact Hs'|].
  split.
  - exact (proj1 (only_three_kinds_of_error_escape _ _ _ Hr Hs)).
  - exact (proj1 (proj2 (only_three_kinds_of_error_escape _ _ _ Hr Hs'))
             (Append (String Ascii.zero "f") "a") "id2" eq_refl).
Defined.

(** ** FileHandler: how the caller of a read is notified *)

(** X19.  In every state of the scheduler: an admitted read
    subscribes the promise it returns, pending, on the id of its order,
    and no listener is registered under another event name than 'read';
    when the fs call of a read order succeeds, every pending promise
    subscribed on the order's id is fulfilled with the content read, and a
    promise that no listener with that id resolves is left as it was; a
    promise once settled is never changed by any later step, so a caller
    is notified at most once; when an fs call fails, no promise changes:
    the subscriber is not notified of the error.  In both cases the 'read'
    listeners registered before the notification are still registered
    after it. *)
Theorem read_subscriber_is_notified_at_most_once s :
  reachable s ->
  (forall rnd path,
     at_capacity "read" s = false ->
     fst (read rnd path s) = length (promises s) /\
     ReadListener rnd (length (promises s)) ∈ listeners "read" (snd (read rnd path s)) /\
     promises (snd (read rnd path s)) !! length (promises s) = Some Pending) /\
  (forall eventName, eventName <> "read" -> listeners eventName s = []) /\
  (forall i order fault content s',
     inflight s !! i = Some (readFilePrivate, order) ->
     fst (fs_perform readFilePrivate order fault (files s)) = inl content ->
     step (Complete i fault) s = Some s' ->
     (forall p, ReadListener (Order.id order) p ∈ listeners "read" s ->
                promises s !! p = Some Pending ->
                promises s' !! p = Some (Fulfilled (VString content))) /\
     (forall p, (forall oid, ReadListener oid p ∈ listeners "read" s -> oid <> Order.id order) ->
                promises s' !! p = promises s !! p) /\
     listeners "read" s' = listeners "read" s) /\
  (forall l s' p st,
     step l s = Some s' -> promises s !! p = Some st -> st <> Pending ->
     promises s' !! p = Some st) /\
  (forall i fn order fault err s',
     inflight s !! i = Some (fn, order) ->
     fst (fs_perform fn order fault (files s)) = inr err ->
     step (Complete i fault) s = Some s' ->
     promises s' = promises s /\ listeners "read" s' = listeners "read" s).
Proof.
  intros Hr. split_and!.
  - intros rnd path Hc. apply read_subscribes; [by apply reachable_types_ok|done].
  - intros ev Hev. unfold listeners. by rewrite (reachable_only_read s Hr ev Hev).
  - intros i order fault content s' Hi Hok. simpl.
    destruct (microtasks s) eqn:Hm; [|done]. rewrite Hi. intros [= <-].
    unfold complete.
    destruct (fs_perform readFilePrivate order fault _) as [result fsys] eqn:E.
    simpl in Hok. subst result. unfold private_callback. simpl.
    split_and!.
    + intros p Hin Hp.
      match goal with |- context [emit _ _ ?s0] =>
        exact (emit_read_notifies order content s0 p Hin Hp)
      end.
    + intros p Hp.
      match goal with |- context [emit _ _ ?s0] =>
        exact (emit_read_untouched order content s0 p Hp)
      end.
    + match goal with |- context [emit ?ev ?d ?s0] =>
        destruct (emit_same_config ev d s0) as (He & _)
      end.
      unfold listeners. by rewrite He.
  - intros l s' p st Hstep. exact (step_stable l s s' Hstep p st).
  - intros i fn order fault err s' Hi Herr Hstep.
    by rewrite (failed_completion _ _ _ _ _ _ _ Hr Hi Herr Hstep).
Qed.

Lemma read_subscriber_is_notified_at_most_once_witness :
  exists s s1 s2 t t1,
    session {["f" := "x"]} None None [Call (Read "f") "id1"; RunMicrotask] = Some s /\
    step (Complete 0 None) s = Some s1 /\
    step (Call (Read "f") "id2") s1 = Some s2 /\
    session ∅ None None [Call (Read "f") "id1"; RunMicrotask] = Some t /\
    step (Complete 0 None) t = Some t1 /\
    ReadListener "id3" (length (promises s1)) ∈ listeners "read" (snd (read "id3" "f" s1)) /\
    listeners "write" s1 = [] /\
    promises s1 !! 0 = Some (Fulfilled (VString "x")) /\
    listeners "read" s1 = listeners "read" s /\
    promises s2 !! 0 = Some (Fulfilled (VString "x")) /\
    promises t1 = promises t /\
    listeners "read" t1 = listeners "read" t.
Proof.
  eexists _, _, _, _, _.
  split; [vm_compute; reflexivity|].
  split; [vm_compute; reflexivity|].
  split; [vm_compute; reflexivity|].
  split; [vm_compute; reflexivity|].
  split; [vm_compute; reflexivity|].
  split.
  { refine (proj1 (proj2 (proj1 (read_subscriber_is_notified_at_most_once _ _) "id3" "f" _))).
    - eapply (session_reachable {["f" := "x"]} None None
                [Call (Read "f") "id1"; RunMicrotask; Complete 0 None]).
      vm_compute. reflexivity.
    - vm_compute. reflexivity. }
  split.
  { refine (proj1 (proj2 (read_subscriber_is_notified_at_most_once _ _)) "write" _).
    - eapply (session_reachable {["f" := "x"]} None None
                [Call (Read "f") "id1"; RunMicrotask; Complete 0 None]).
      vm_compute. reflexivity.
    - discriminate. }
  split.
  { match goal with |- promises ?s1 !! 0 = _ =>
      refine (proj1 (proj1 (proj2 (proj2 (read_subscriber_is_notified_at_most_once _ _)))
                0 (Order.mk "f" "read" "" "id1") None "x" s1 _ _ _) 0 _ _)
    end.
    - eapply (session_reachable {["f" := "x"]} None None [Call (Read "f") "id1"; RunMicrotask]).
      vm_compute. reflexivity.
    - reflexivity.
    - vm_compute. reflexivity.
    - vm_compute. reflexivity.
    - vm_compute. constructor.
    - reflexivity. }
  split.
  { match goal with |- listeners "read" ?s1 = _ =>
      refine (proj2 (proj2 (proj1 (proj2 (proj2 (read_subscriber_is_notified_at_most_once _ _)))
                0 (Order.mk "f" "read" "" "id1") None "x" s1 _ _ _)))
    end.
    - eapply (session_reachable {["f" := "x"]} None None [Call (Read "f") "id1"; RunMicrotask]).
      vm_compute. reflexivity.
    - reflexivity.
    - vm_compute. reflexivity.
    - vm_compute. reflexivity. }
  split.
  { match goal with |- promises ?s2 !! 0 = _ =>
      refine (proj1 (proj2 (proj2 (proj2 (read_subscriber_is_notified_at_most_once _ _))))
                (Call (Read "f") "id2") s2 0 (Fulfilled (VString "x")) _ _ _)
    end.
    - eapply (session_reachable {["f" := "x"]} None None
                [Call (Read "f") "id1"; RunMicrotask; Complete 0 None]).
      vm_compute. reflexivity.
    - vm_compute. reflexivity.
    - reflexivity.
    - discriminate. }
  match goal with |- promises ?t1 = _ /\ _ =>
    refine (proj2 (proj2 (proj2 (proj2 (read_subscriber_is_notified_at_most_once _ _))))
              0 readFilePrivate (Order.mk "f" "read" "" "id1") None (HostError "ENOENT") t1 _ _ _)
  end.
  - eapply (session_reachable ∅ None None [Call (Read "f") "id1"; RunMicrotask]).
    vm_compute. reflexivity.
  - reflexivity.
  - reflexivity.
  - vm_compute. reflexivity.
Defined.
